(** * String insertion into a curses window line: [pdc_insstr.c]

    A shallow embedding of [graphics/pdcurs34/pdcurses/pdc_insstr.c] and the
    properties of its insertion engine ([winsnstr], [wins_nwstr]) and of the
    forwarding entry points built on it.

    The C functions run against the library's window store and call three
    collaborators that live in other files ([winsch], [wmove]/[move] and
    [PDC_mbtowc]).  The embedding is therefore written in a small monad that
    threads the store, records every call to a collaborator and every
    evaluation of [str[i]] in an event trace, and has an explicit outcome for
    the two ways a C run can leave defined behaviour here: a read outside the
    source buffer, and a loop that runs out of the fuel the model gives it. *)

From stdpp Require Import base numbers list gmap.

Local Open Scope Z_scope.

(** ** Status codes, character units and pointers *)

(** Modelled from the spec: the status codes [OK] and [ERR] are macros of
    [curses.h], which is not part of this file; the spec calls them the
    conventional OK/ERROR status codes, and curses fixes them as 0 and -1. *)
Definition OK : Z := 0.
Definition ERR : Z := -1.

(** A character cell value ([chtype]); [char] and [wchar_t] values are
    integers as well. *)
Definition chtype : Type := Z.

(** Modelled from the spec: [chtype] is declared in [curses.h], which is
    not part of this file.  The spec calls a character unit one terminal
    cell's worth of content, a byte code or a code point; the cell type is
    taken as an unsigned 32-bit integer type, so that the implicit
    conversion of a [wchar_t] argument at a call [winsch(win, c)] is the
    reduction of [c] modulo 2^32. *)
Definition to_chtype (c : Z) : chtype := c `mod` 2 ^ 32.

(** [WINDOW *]: [None] is the null pointer, [Some a] the window at address
    [a] of the store. *)
Definition WINDOW_ptr : Type := option nat.

(** [const char *] and [const wchar_t *]: [None] is the null pointer,
    [Some buf] points at the first element of the array [buf].  A C string
    in [buf] ends at its first zero element; elements after the terminator
    belong to the same array and can be read. *)
Definition string_ptr : Type := option (list Z).

(** ** Events and outcomes *)

Inductive event : Type :=
| Read (i : Z)
    (* a decode or insertion loop of the engine evaluated [str[i]] (or
       [wstr[i]]) on the caller's source *)
| Mbtowc (k : nat) (i max retval wc : Z)
    (* [PDC_mbtowc(wstr + k, str + i, max)] returned [retval], unit [wc] *)
| Insch (ch : chtype) (ret : Z)
    (* [winsch(win, ch)] returned [ret] *)
| Move (ret : Z)
    (* [move(y, x)] or [wmove(win, y, x)] returned [ret] *)
| Scan (i : Z).
    (* the length scan of [wins_nwstr], lines 255-258, evaluated [wstr[i]];
       kept apart from [Read] so that what the scan looks at and what the
       insertion loop looks at can be told from each other *)

Inductive result (A : Type) : Type :=
| Done (a : A)      (* the C code ran to this value *)
| Fault             (* a read outside the source array: undefined in C *)
| OutOfFuel.        (* the model's loop bound was too small *)

Arguments Done {A} a.
Arguments Fault {A}.
Arguments OutOfFuel {A}.

(** ** The external collaborators *)

(** The functions and the global this file uses and does not define.  Each
    function takes the store and returns its status together with the new
    store.  [PDC_mbtowc s max] sees the bytes from the pointer [s] on and
    the byte limit, and returns its [int] result with the unit it stores
    through its first argument; it is taken to depend on nothing else (no
    shift state between calls). *)
Class Collaborators (World : Type) : Type := {
  winsch : WINDOW_ptr → chtype → World → Z * World;
  wmove : WINDOW_ptr → Z → Z → World → Z * World;
  move : Z → Z → World → Z * World;
  stdscr : World → WINDOW_ptr;
  PDC_mbtowc : list Z → Z → Z * Z
}.

Section Engine.
Context {World : Type} `{!Collaborators World}.

(** ** The monad: store passing with an event trace *)

Definition M (A : Type) : Type := World → result A * World * list event.

#[export] Instance M_ret : MRet M := λ A a w, (Done a, w, []).

#[export] Instance M_bind : MBind M := λ A B f m w,
  match m w with
  | (Done a, w', t) => let '(r, w'', t') := f a w' in (r, w'', t ++ t')
  | (Fault, w', t) => (Fault, w', t)
  | (OutOfFuel, w', t) => (OutOfFuel, w', t)
  end.

Definition out_of_fuel {A : Type} : M A := λ w, (OutOfFuel, w, []).

(** [buf[i]] on the caller's array. *)
Definition load (buf : list Z) (i : Z) : M Z := λ w,
  match (if i <? 0 then None else buf !! Z.to_nat i) with
  | Some c => (Done c, w, [Read i])
  | None => (Fault, w, [Read i])
  end.

(** [wstr[k]] on the local array of [winsnstr]. *)
Definition peek (wstr : list Z) (k : nat) : M Z := λ w,
  match wstr !! k with
  | Some c => (Done c, w, [])
  | None => (Fault, w, [])
  end.

Definition call_winsch (win : WINDOW_ptr) (ch : chtype) : M Z := λ w,
  let '(r, w') := winsch win ch w in (Done r, w', [Insch ch r]).

Definition call_wmove (win : WINDOW_ptr) (y x : Z) : M Z := λ w,
  let '(r, w') := wmove win y x w in (Done r, w', [Move r]).

Definition call_move (y x : Z) : M Z := λ w,
  let '(r, w') := move y x w in (Done r, w', [Move r]).

Definition get_stdscr : M WINDOW_ptr := λ w, (Done (stdscr w), w, []).

Definition call_mbtowc (k : nat) (buf : list Z) (i max : Z) : M (Z * Z) := λ w,
  let '(retval, wc) := PDC_mbtowc (drop (Z.to_nat i) buf) max in
  (Done (retval, wc), w, [Mbtowc k i max retval wc]).

(** [strlen(str)]: the index of the first zero element.  A buffer without a
    terminator makes [strlen] run off the array. *)
Fixpoint strlen (buf : list Z) : option Z :=
  match buf with
  | [] => None
  | c :: rest => if c =? 0 then Some 0 else Z.succ <$> strlen rest
  end.

Definition call_strlen (buf : list Z) : M Z := λ w,
  match strlen buf with
  | Some len => (Done len, w, [])
  | None => (Fault, w, [])
  end.

(** ** The loops of the engine *)

(** The three insertion loops have one shape,
    [while (n) if (winsch(win, a[--n]) == ERR) return ERR;]
    and differ in the array they fetch [a[n]] from.  The result is
    [Some r] when the loop executed [return r] and [None] when it fell
    through. *)
Fixpoint insch_backwards (fetch : nat → M chtype) (win : WINDOW_ptr)
    (n : nat) : M (option Z) :=
  match n with
  | O => mret None
  | S n' =>
      ch ← fetch n';
      r ← call_winsch win ch;
      if r =? ERR then mret (Some ERR) else insch_backwards fetch win n'
  end.

(** [(unsigned char)(str[n])] of the narrow build. *)
Definition fetch_narrow (buf : list Z) (k : nat) : M chtype :=
  c ← load buf (Z.of_nat k); mret (c `mod` 256).

(** [*p] with [p = wstr + k] of the wide build of [winsnstr], converted to
    [chtype] as the argument of [winsch]. *)
Definition fetch_local (wstr : list Z) (k : nat) : M chtype :=
  c ← peek wstr k; mret (to_chtype c).

(** [wstr[n]] of [wins_nwstr], converted to [chtype] as the argument of
    [winsch]. *)
Definition fetch_wide (buf : list Z) (k : nat) : M chtype :=
  c ← load buf (Z.of_nat k); mret (to_chtype c).

(** The decode loop of the wide build, lines 126-137:
    [while (str[i] && i < n) { retval = PDC_mbtowc(p, str + i, n - i);
       if (retval <= 0) break; p++; i += retval; }]
    [wstr] is the local array and [p] the index the pointer [p] stands at.
    The C variables are [int]s; they are integers here, and stay between 0
    and 512 as long as the decoder reports no more than the [n - i] bytes it
    was allowed.  The recursion is on fuel, one unit per iteration. *)
Fixpoint decode_loop (fuel : nat) (buf : list Z) (n i : Z) (wstr : list Z)
    (p : nat) : M (list Z * nat) :=
  c ← load buf i;
  if (c =? 0) || negb (i <? n) then mret (wstr, p) else
  match fuel with
  | O => out_of_fuel
  | S fuel' =>
      '(retval, wc) ← call_mbtowc p buf i (n - i);
      if retval <=? 0 then mret (wstr, p) else
      decode_loop fuel' buf n (i + retval) (<[p := wc]> wstr) (S p)
  end.

(** The clamp of lines 112-115 and 260-263: [if (n < 0 || n < len) n = len;] *)
Definition clamp (n len : Z) : Z :=
  if (n <? 0) || (n <? len) then len else n.

(** The cap of lines 118-121: [if (n > 512) n = 512;] *)
Definition cap (n : Z) : Z := if n >? 512 then 512 else n.

(** ** [winsnstr] and its entry points *)

(** [CONFIG_PDCURSES_WIDE] is the build switch. *)
Definition winsnstr (CONFIG_PDCURSES_WIDE : bool) (win : WINDOW_ptr)
    (str : string_ptr) (n : Z) : M Z :=
  match win, str with
  | Some _, Some buf =>
      len ← call_strlen buf;
      let n := clamp n len in
      if CONFIG_PDCURSES_WIDE then
        let n := cap n in
        '(wstr, p) ← decode_loop (Z.to_nat n) buf n 0 (replicate 513 0) 0%nat;
        r ← insch_backwards (fetch_local wstr) win p;
        match r with Some e => mret e | None => mret OK end
      else
        r ← insch_backwards (fetch_narrow buf) win (Z.to_nat n);
        match r with Some e => mret e | None => mret OK end
  | _, _ => mret ERR
  end.

Definition insstr (wide : bool) (str : string_ptr) : M Z :=
  scr ← get_stdscr; winsnstr wide scr str (-1).

Definition winsstr (wide : bool) (win : WINDOW_ptr) (str : string_ptr) : M Z :=
  winsnstr wide win str (-1).

Definition mvinsstr (wide : bool) (y x : Z) (str : string_ptr) : M Z :=
  r ← call_move y x;
  if r =? ERR then mret ERR else
  scr ← get_stdscr; winsnstr wide scr str (-1).

Definition mvwinsstr (wide : bool) (win : WINDOW_ptr) (y x : Z)
    (str : string_ptr) : M Z :=
  r ← call_wmove win y x;
  if r =? ERR then mret ERR else winsnstr wide win str (-1).

Definition insnstr (wide : bool) (str : string_ptr) (n : Z) : M Z :=
  scr ← get_stdscr; winsnstr wide scr str n.

Definition mvinsnstr (wide : bool) (y x : Z) (str : string_ptr) (n : Z) : M Z :=
  r ← call_move y x;
  if r =? ERR then mret ERR else
  scr ← get_stdscr; winsnstr wide scr str n.

Definition mvwinsnstr (wide : bool) (win : WINDOW_ptr) (y x : Z)
    (str : string_ptr) (n : Z) : M Z :=
  r ← call_wmove win y x;
  if r =? ERR then mret ERR else winsnstr wide win str n.

(** ** [wins_nwstr] and its entry points (wide build only) *)

(** The length that [for (len = 0, p = wstr; *p; p++) len++;] of lines
    255-258 arrives at: the index of the first zero element. *)
Fixpoint wcs_scan (buf : list Z) : option Z :=
  match buf with
  | [] => None
  | c :: rest => if c =? 0 then Some 0 else Z.succ <$> wcs_scan rest
  end.

(** The scan itself, from the pointer [p] (the elements from [p] on) with
    the count at [len]; [p] always stands at [wstr + len].  Every test [*p]
    is an evaluation of the source and is logged; without a terminator the
    scan runs off the array. *)
Fixpoint wcs_scan_loop (p : list Z) (len : Z) : M Z :=
  match p with
  | [] => λ w, (Fault, w, [Scan len])
  | c :: p' => λ w,
      if c =? 0 then (Done len, w, [Scan len])
      else let '(r, w', t) := wcs_scan_loop p' (len + 1) w in
           (r, w', Scan len :: t)
  end.

Definition call_wcs_scan (buf : list Z) : M Z := wcs_scan_loop buf 0.

Definition wins_nwstr (win : WINDOW_ptr) (wstr : string_ptr) (n : Z) : M Z :=
  match win, wstr with
  | Some _, Some buf =>
      len ← call_wcs_scan buf;
      let n := clamp n len in
      r ← insch_backwards (fetch_wide buf) win (Z.to_nat n);
      match r with Some e => mret e | None => mret OK end
  | _, _ => mret ERR
  end.

Definition ins_wstr (wstr : string_ptr) : M Z :=
  scr ← get_stdscr; wins_nwstr scr wstr (-1).

Definition wins_wstr (win : WINDOW_ptr) (wstr : string_ptr) : M Z :=
  wins_nwstr win wstr (-1).

Definition mvins_wstr (y x : Z) (wstr : string_ptr) : M Z :=
  r ← call_move y x;
  if r =? ERR then mret ERR else
  scr ← get_stdscr; wins_nwstr scr wstr (-1).

Definition mvwins_wstr (win : WINDOW_ptr) (y x : Z) (wstr : string_ptr) : M Z :=
  r ← call_wmove win y x;
  if r =? ERR then mret ERR else wins_nwstr win wstr (-1).

Definition ins_nwstr (wstr : string_ptr) (n : Z) : M Z :=
  scr ← get_stdscr; wins_nwstr scr wstr n.

Definition mvins_nwstr (y x : Z) (wstr : string_ptr) (n : Z) : M Z :=
  r ← call_move y x;
  if r =? ERR then mret ERR else
  scr ← get_stdscr; wins_nwstr scr wstr n.

Definition mvwins_nwstr (win : WINDOW_ptr) (y x : Z) (wstr : string_ptr)
    (n : Z) : M Z :=
  r ← call_wmove win y x;
  if r =? ERR then mret ERR else wins_nwstr win wstr n.

End Engine.

(** ** The forwarding contract of the entry points *)

Section Forwarding.
Context {World : Type} `{!Collaborators World}.

(** What the spec says of the convenience entry points: one operation
    [insert(target, source, limit)], where the target defaults to the
    process-wide current window, the limit defaults to unbounded, and the
    cursor is optionally repositioned first; a failed repositioning is
    returned and nothing is inserted. *)
Definition spec_forward (insert : WINDOW_ptr → string_ptr → Z → M Z)
    (target : option WINDOW_ptr) (position : option (Z * Z))
    (source : string_ptr) (limit : option Z) (w : World)
    : result Z * World * list event :=
  let unbounded := -1 in
  let delegate (w : World) :=
    insert (default (stdscr w) target) source (default unbounded limit) w in
  match position with
  | None => delegate w
  | Some (y, x) =>
      let '(r, w') :=
        match target with
        | None => move y x w
        | Some win => wmove win y x w
        end in
      if r =? ERR then (Done ERR, w', [Move r])
      else let '(res, w'', t) := delegate w' in (res, w'', Move r :: t)
  end.

End Forwarding.

(** ** Accounting for a run *)

Section Accounting.
Context {World : Type} `{!Collaborators World}.

(** The store after the calls [winsch(win, u)] for the units [us], in
    order, with the status each call returned. *)
Fixpoint replay (win : WINDOW_ptr) (us : list chtype) (w : World)
    : list (chtype * Z) * World :=
  match us with
  | [] => ([], w)
  | u :: us' =>
      let '(r, w') := winsch win u w in
      let '(cs, w'') := replay win us' w' in ((u, r) :: cs, w'')
  end.

(** The insertion step of the engines on an explicit list of units: offer
    the units to [winsch] in order and stop at the first call that returns
    [ERR].  The result is [Some ERR] after a failed call and [None] when
    every unit was taken; with it come the store reached and the calls made. *)
Fixpoint offer_units (win : WINDOW_ptr) (us : list chtype) (w : World)
    : option Z * World * list (chtype * Z) :=
  match us with
  | [] => (None, w, [])
  | u :: us' =>
      let '(r, w') := winsch win u w in
      if r =? ERR then (Some ERR, w', [(u, r)])
      else let '(res, w'', cs) := offer_units win us' w' in
           (res, w'', (u, r) :: cs)
  end.

(** What the value of a loop becomes at the end of the function:
    [return e] inside the loop, or [return OK] after it. *)
Definition finish (r : result (option Z)) : result Z :=
  match r with
  | Done (Some e) => Done e
  | Done None => Done OK
  | Fault => Fault
  | OutOfFuel => OutOfFuel
  end.

(** A fetcher that reads element [k] of [arr], converts it with [f], leaves
    the store alone and logs [ev k]. *)
Definition fetches (fetch : nat → @M World chtype) (arr : list Z)
    (f : Z → chtype) (ev : nat → list event) : Prop :=
  ∀ (k : nat) (w : World),
    fetch k w = (from_option Done Fault (f <$> arr !! k), w, ev k).

End Accounting.

(** ** Reading a trace *)

(** The calls to [winsch], in order, each with its status. *)
Definition insch_calls (t : list event) : list (chtype * Z) :=
  omap (λ e, match e with Insch ch r => Some (ch, r) | _ => None end) t.

(** The units that were inserted: those whose [winsch] call did not fail. *)
Definition inserted (t : list event) : list chtype :=
  omap (λ e, match e with
             | Insch ch r => if r =? ERR then None else Some ch
             | _ => None
             end) t.

(** The source positions the decode loop and the insertion loops evaluated
    (the [Read] events); those the length scan of [wins_nwstr] evaluated
    are [scans] below. *)
Definition reads (t : list event) : list Z :=
  omap (λ e, match e with Read i => Some i | _ => None end) t.


(** The events of a length scan from the pointer [p] with the count at
    [len]: one per element up to and including the first zero, or one per
    element and one beyond the array. *)
Fixpoint scan_events (p : list Z) (len : Z) : list event :=
  match p with
  | [] => [Scan len]
  | c :: p' => Scan len :: (if c =? 0 then [] else scan_events p' (len + 1))
  end.

(** The calls to [PDC_mbtowc]: write index, byte cursor, byte limit,
    result, unit. *)
Definition decode_calls (t : list event) : list (nat * Z * Z * Z * Z) :=
  omap (λ e, match e with
             | Mbtowc k i max r wc => Some (k, i, max, r, wc)
             | _ => None
             end) t.

(** The units of the decode steps that succeeded. *)
Definition decoded (t : list event) : list Z :=
  omap (λ e, match e with
             | Mbtowc _ _ _ r wc => if r <=? 0 then None else Some wc
             | _ => None
             end) t.

(** A stretch of trace without calls to [winsch] or [PDC_mbtowc]. *)
Definition quiet (t : list event) : Prop :=
  insch_calls t = [] ∧ inserted t = [] ∧ decode_calls t = [] ∧ decoded t = [].

(** The calls of one run of the decode loop with byte budget [n], entered
    with the unit pointer at index [p] and the byte cursor at [i]: each call
    is made while [i < n], writes at the current index, is limited to the
    [n - i] bytes left, and is followed by another call only if it reported
    a positive count [r], which then moves the cursor to [i + r] and the
    unit pointer one further. *)
Fixpoint decode_chain (n : Z) (p : nat) (i : Z)
    (cs : list (nat * Z * Z * Z * Z)) : Prop :=
  match cs with
  | [] => True
  | (k, i', max, r, _) :: rest =>
      k = p ∧ i' = i ∧ i < n ∧ max = n - i ∧ (r ≤ 0 → rest = []) ∧
      decode_chain n (S p) (i + r) rest
  end.

(** ** A model of the collaborators *)

Module SpecModel.

Record WINDOW : Type := mkWINDOW {
  _cury : Z; _curx : Z;           (* cursor row and column *)
  _maxy : Z; _maxx : Z;           (* number of rows and of columns *)
  _y : list (list chtype)         (* the lines *)
}.

Record screen : Type := mkScreen {
  windows : gmap nat WINDOW;      (* the windows, by address *)
  current : WINDOW_ptr            (* the process-wide current window *)
}.

Definition blank : chtype := 32.

Definition cursor_valid (W : WINDOW) : bool :=
  (0 <=? _cury W) && (_cury W <? _maxy W) &&
  (0 <=? _curx W) && (_curx W <? _maxx W).

(** The line with [unit] put in at column [x]: the cells from [x] on move
    one to the right and what passes the width is dropped. *)
Definition shift_in (width x : nat) (unit : chtype) (line : list chtype)
    : list chtype :=
  take width (take x line ++ unit :: drop x line).

(** [W] with the content of its cursor line replaced. *)
Definition set_cursor_line (W : WINDOW) (line : list chtype) : WINDOW :=
  mkWINDOW (_cury W) (_curx W) (_maxy W) (_maxx W)
    (<[Z.to_nat (_cury W) := line]> (_y W)).

(** The screen with the window at address [a] replaced. *)
Definition put_window (a : nat) (W : WINDOW) (s : screen) : screen :=
  mkScreen (<[a := W]> (windows s)) (current s).

(** Modelled from the spec: [winsch] is defined in another file.  The spec
    gives it as [insert_cell(window, unit)]: it inserts one character unit
    at the window's current cursor column on the current line, shifting
    existing cells on that line rightward by one, dropping the rightmost
    cell if it overflows the line width; the cursor position is unchanged;
    it fails if the window or the cursor position is invalid. *)
Definition insert_cell (win : WINDOW_ptr) (unit : chtype) (s : screen)
    : Z * screen :=
  match win with
  | None => (ERR, s)
  | Some a =>
      match windows s !! a with
      | None => (ERR, s)
      | Some W =>
          if cursor_valid W then
            match _y W !! Z.to_nat (_cury W) with
            | None => (ERR, s)
            | Some line =>
                let line' :=
                  shift_in (Z.to_nat (_maxx W)) (Z.to_nat (_curx W)) unit line in
                (OK, put_window a (set_cursor_line W line') s)
            end
          else (ERR, s)
      end
  end.

(** Modelled from the spec: [wmove] and [move] are defined in another file.
    The spec gives them as [move_cursor(window, row, col)], which
    repositions the cursor and fails on an invalid window or position. *)
Definition move_cursor (win : WINDOW_ptr) (y x : Z) (s : screen) : Z * screen :=
  match win with
  | None => (ERR, s)
  | Some a =>
      match windows s !! a with
      | None => (ERR, s)
      | Some W =>
          if (0 <=? y) && (y <? _maxy W) && (0 <=? x) && (x <? _maxx W) then
            (OK, put_window a (mkWINDOW y x (_maxy W) (_maxx W) (_y W)) s)
          else (ERR, s)
      end
  end.

(** Modelled from the spec: [PDC_mbtowc] is defined in another file.  The
    spec gives it as [decode_one(buffer, max_bytes)]: it attempts to decode
    one character unit from the start of the buffer, consuming at most
    [max_bytes], and reports either the unit with a positive byte count or
    a non-positive signal.  The encoding taken here is UTF-8 restricted to
    one- and two-byte sequences. *)
Definition decode_one (s : list Z) (max : Z) : Z * Z :=
  if max <? 1 then (-1, 0) else
  match s with
  | [] => (-1, 0)
  | c :: rest =>
      let key := c `mod` 256 in
      if key =? 0 then (0, 0)
      else if key <? 128 then (1, key)
      else if Z.land key 224 =? 192 then
        match rest with
        | c1 :: _ =>
            if 1 <? max then
              (2, Z.lor (Z.shiftl (Z.land key 31) 6) (Z.land (c1 `mod` 256) 63))
            else (-1, 0)
        | [] => (-1, 0)
        end
      else (-1, 0)
  end.

#[global] Instance model : Collaborators screen := {|
  winsch := insert_cell;
  wmove := move_cursor;
  move := λ y x s, move_cursor (current s) y x s;
  stdscr := current;
  PDC_mbtowc := decode_one
|}.

(** A window of [rows] blank lines of [cols] cells with the cursor at
    [(y, x)], alone on the screen at address 1 and current. *)
Definition blank_window (rows cols y x : Z) : WINDOW :=
  mkWINDOW y x rows cols
    (replicate (Z.to_nat rows) (replicate (Z.to_nat cols) blank)).

Definition blank_screen (rows cols y x : Z) : screen :=
  mkScreen {[ 1%nat := blank_window rows cols y x ]} (Some 1%nat).

(** The text of a line and the cursor of a window, for reading results. *)
Definition line_of (s : screen) (a row : nat) : option (list chtype) :=
  W ← windows s !! a; _y W !! row.

Definition cursor_of (s : screen) (a : nat) : option (Z * Z) :=
  W ← windows s !! a; Some (_cury W, _curx W).


(** [W'] is [W] except for the content of the line at the cursor row. *)
Definition same_but_cursor_line (W W' : WINDOW) : Prop :=
  _cury W' = _cury W ∧ _curx W' = _curx W ∧
  _maxy W' = _maxy W ∧ _maxx W' = _maxx W ∧
  length (_y W') = length (_y W) ∧
  ∀ row, row ≠ Z.to_nat (_cury W) → _y W' !! row = _y W !! row.

(** [s'] is [s] except for the content of the line at the cursor row of
    the window at address [a]. *)
Definition frame (a : nat) (s s' : screen) : Prop :=
  current s' = current s ∧
  (∀ b, b ≠ a → windows s' !! b = windows s !! b) ∧
  option_Forall2 same_but_cursor_line (windows s !! a) (windows s' !! a).

End SpecModel.

(** ** A store that runs out of room *)

(** A second instance of the collaborators, to exercise the failure path of
    the engine: the store is the number of cells that can still be inserted,
    and [winsch] fails once it is used up (the spec names an allocation
    failure in a dynamic backing store as one cause of failure). *)
Module BudgetStore.

Definition insert_while_room (win : WINDOW_ptr) (unit : chtype) (room : nat)
    : Z * nat :=
  match room with
  | O => (ERR, O)
  | S room' => (OK, room')
  end.

#[global] Instance budget_model : Collaborators nat := {|
  winsch := insert_while_room;
  wmove := λ _ _ _ room, (OK, room);
  move := λ _ _ room, (OK, room);
  stdscr := λ _, Some 1%nat;
  PDC_mbtowc := SpecModel.decode_one
|}.

End BudgetStore.

(** * Properties *)

(** ** Traces *)

Lemma insch_calls_app (t1 t2 : list event) :
  insch_calls (t1 ++ t2) = insch_calls t1 ++ insch_calls t2.
Proof. apply omap_app. Qed.

Lemma inserted_app (t1 t2 : list event) :
  inserted (t1 ++ t2) = inserted t1 ++ inserted t2.
Proof. apply omap_app. Qed.

Lemma reads_app (t1 t2 : list event) : reads (t1 ++ t2) = reads t1 ++ reads t2.
Proof. apply omap_app. Qed.

Lemma decode_calls_app (t1 t2 : list event) :
  decode_calls (t1 ++ t2) = decode_calls t1 ++ decode_calls t2.
Proof. apply omap_app. Qed.

Lemma decoded_app (t1 t2 : list event) :
  decoded (t1 ++ t2) = decoded t1 ++ decoded t2.
Proof. apply omap_app. Qed.

(** The units of the calls that did not fail are the inserted units. *)
Lemma inserted_no_failure (t : list event) :
  (∀ ch, (ch, ERR) ∉ insch_calls t) → inserted t = (insch_calls t).*1.
Proof.
  induction t as [|e t IH]; intros Hno; [done|].
  destruct e as [i|k i m r wc|ch r|r|i]; try (apply IH; exact Hno).
  unfold inserted, insch_calls in *. cbn [omap list_omap] in *.
  destruct (Z.eqb_spec r ERR) as [->|Hr].
  - exfalso. apply (Hno ch). left.
  - cbn. f_equal. apply IH. intros c Hc. apply (Hno c). by right.
Qed.

(** ** Running the monad *)

Section Runs.
Context {World : Type} `{!Collaborators World}.

Lemma bind_run {A B : Type} (m : M A) (f : A → M B) (w : World) :
  (m ≫= f) w =
  match m w with
  | (Done a, w', t) => let '(r, w'', t') := f a w' in (r, w'', t ++ t')
  | (Fault, w', t) => (Fault, w', t)
  | (OutOfFuel, w', t) => (OutOfFuel, w', t)
  end.
Proof. reflexivity. Qed.

Lemma fetch_narrow_fetches (buf : list Z) :
  fetches (World:=World) (fetch_narrow buf) buf (λ c, c `mod` 256) (λ k, [Read (Z.of_nat k)]).
Proof.
  intros k w. unfold fetch_narrow. rewrite bind_run. unfold load.
  replace (Z.of_nat k <? 0) with false by (symmetry; apply Z.ltb_ge; lia).
  rewrite Nat2Z.id. by destruct (buf !! k).
Qed.

Lemma fetch_wide_fetches (buf : list Z) :
  fetches (World:=World) (fetch_wide buf) buf to_chtype
    (λ k, [Read (Z.of_nat k)]).
Proof.
  intros k w. unfold fetch_wide. rewrite bind_run. unfold load.
  replace (Z.of_nat k <? 0) with false by (symmetry; apply Z.ltb_ge; lia).
  rewrite Nat2Z.id. by destruct (buf !! k).
Qed.

Lemma fetch_local_fetches (wstr : list Z) :
  fetches (World:=World) (fetch_local wstr) wstr to_chtype (λ _, []).
Proof.
  intros k w. unfold fetch_local. rewrite bind_run. unfold peek.
  by destruct (wstr !! k).
Qed.

(** One iteration of an insertion loop. *)
Lemma insch_backwards_S (fetch : nat → M chtype) arr f ev win n w :
  fetches fetch arr f ev →
  insch_backwards fetch win (S n) w =
  match arr !! n with
  | None => (Fault, w, ev n)
  | Some c =>
      let '(r, w1) := winsch win (f c) w in
      if r =? ERR then (Done (Some ERR), w1, ev n ++ [Insch (f c) r])
      else let '(res, w', t) := insch_backwards fetch win n w1 in
           (res, w', ev n ++ Insch (f c) r :: t)
  end.
Proof.
  intros Hf. cbn [insch_backwards]. rewrite bind_run, Hf.
  destruct (arr !! n) as [c|]; cbn; [|done].
  rewrite bind_run. unfold call_winsch.
  destruct (winsch win (f c) w) as [r w1].
  destruct (r =? ERR); [done|].
  by destruct (insch_backwards fetch win n w1) as [[res w'] t].
Qed.

(** Induction over the run of an insertion loop. *)
Lemma insch_backwards_run (fetch : nat → M chtype) arr f ev win
    (P : nat → World → result (option Z) → World → list event → Prop) :
  fetches fetch arr f ev →
  (∀ w, P 0%nat w (Done None) w []) →
  (∀ n w, arr !! n = None → P (S n) w Fault w (ev n)) →
  (∀ n w c w1, arr !! n = Some c → winsch win (f c) w = (ERR, w1) →
     P (S n) w (Done (Some ERR)) w1 (ev n ++ [Insch (f c) ERR])) →
  (∀ n w c r w1 res w' t, arr !! n = Some c → winsch win (f c) w = (r, w1) →
     r ≠ ERR → insch_backwards fetch win n w1 = (res, w', t) →
     P n w1 res w' t → P (S n) w res w' (ev n ++ Insch (f c) r :: t)) →
  ∀ n w res w' t, insch_backwards fetch win n w = (res, w', t) → P n w res w' t.
Proof.
  intros Hf H0 Hfault Habort Hstep n.
  induction n as [|n IH]; intros w res w' t Hrun.
  - cbn in Hrun. injection Hrun as <- <- <-. apply H0.
  - rewrite (insch_backwards_S _ _ _ _ _ _ _ Hf) in Hrun.
    destruct (arr !! n) as [c|] eqn:Hc.
    + destruct (winsch win (f c) w) as [r w1] eqn:Hw.
      destruct (Z.eqb_spec r ERR) as [->|Hr].
      * injection Hrun as <- <- <-. by apply Habort.
      * destruct (insch_backwards fetch win n w1) as [[res1 w1'] t1] eqn:Hrec.
        injection Hrun as <- <- <-. eapply Hstep; eauto.
    + injection Hrun as <- <- <-. by apply Hfault.
Qed.

(** One iteration of the decode loop. *)
Lemma decode_loop_unfold fuel buf n i wstr p (w : World) :
  decode_loop fuel buf n i wstr p w =
  match (if i <? 0 then None else buf !! Z.to_nat i) with
  | None => (Fault, w, [Read i])
  | Some c =>
      if (c =? 0) || negb (i <? n) then (Done (wstr, p), w, [Read i]) else
      match fuel with
      | O => (OutOfFuel, w, [Read i])
      | S fuel' =>
          let '(r, wc) := PDC_mbtowc (drop (Z.to_nat i) buf) (n - i) in
          if r <=? 0 then
            (Done (wstr, p), w, [Read i; Mbtowc p i (n - i) r wc])
          else
            let '(res, w', t) :=
              decode_loop fuel' buf n (i + r) (<[p := wc]> wstr) (S p) w in
            (res, w', Read i :: Mbtowc p i (n - i) r wc :: t)
      end
  end.
Proof.
  destruct fuel as [|fuel']; cbn [decode_loop]; rewrite bind_run; unfold load;
    destruct (if i <? 0 then None else buf !! Z.to_nat i) as [c|]; try done;
    destruct ((c =? 0) || negb (i <? n)); try done.
  rewrite bind_run. unfold call_mbtowc.
  destruct (PDC_mbtowc (drop (Z.to_nat i) buf) (n - i)) as [r wc].
  destruct (r <=? 0); [done|].
  by destruct (decode_loop fuel' buf n (i + r) (<[p := wc]> wstr) (S p) w)
    as [[res w'] t].
Qed.

(** Induction over the run of the decode loop.  The principle has no case
    for [OutOfFuel]: with fuel for [n - i] iterations the loop ends by
    itself, since every iteration that continues moves [i] forward. *)
Lemma decode_loop_run buf n
    (P : Z → nat → list Z → result (list Z * nat) → list event → Prop) :
  (∀ i p wstr, 0 ≤ i → buf !! Z.to_nat i = None → P i p wstr Fault [Read i]) →
  (∀ i p wstr c, 0 ≤ i → buf !! Z.to_nat i = Some c → c = 0 ∨ n ≤ i →
     P i p wstr (Done (wstr, p)) [Read i]) →
  (∀ i p wstr c r wc, 0 ≤ i → buf !! Z.to_nat i = Some c → c ≠ 0 → i < n →
     PDC_mbtowc (drop (Z.to_nat i) buf) (n - i) = (r, wc) → r ≤ 0 →
     P i p wstr (Done (wstr, p)) [Read i; Mbtowc p i (n - i) r wc]) →
  (∀ i p wstr c r wc res t, 0 ≤ i → buf !! Z.to_nat i = Some c → c ≠ 0 →
     i < n → PDC_mbtowc (drop (Z.to_nat i) buf) (n - i) = (r, wc) → 0 < r →
     P (i + r) (S p) (<[p := wc]> wstr) res t →
     P i p wstr res (Read i :: Mbtowc p i (n - i) r wc :: t)) →
  ∀ fuel i p wstr (w : World) res w' t,
    0 ≤ i → n - i ≤ Z.of_nat fuel →
    decode_loop fuel buf n i wstr p w = (res, w', t) →
    w' = w ∧ P i p wstr res t.
Proof.
  intros Hfault Hexit Hstop Hstep fuel.
  induction fuel as [|fuel IH]; intros i p wstr w res w' t Hi Hfuel Hrun;
    rewrite decode_loop_unfold in Hrun;
    replace (i <? 0) with false in Hrun by (symmetry; apply Z.ltb_ge; lia);
    destruct (buf !! Z.to_nat i) as [c|] eqn:Hc;
    try (injection Hrun as <- <- <-; split; [done|by apply Hfault]).
  - destruct (Z.eqb_spec c 0) as [->|Hc0]; cbn [orb] in Hrun.
    + injection Hrun as <- <- <-. split; [done|]. eapply Hexit; eauto.
    + replace (i <? n) with false in Hrun by (symmetry; apply Z.ltb_ge; lia).
      injection Hrun as <- <- <-. split; [done|]. eapply Hexit; eauto. lia.
  - destruct (Z.eqb_spec c 0) as [->|Hc0]; cbn [orb] in Hrun.
    { injection Hrun as <- <- <-. split; [done|]. eapply Hexit; eauto. }
    destruct (Z.ltb_spec i n) as [Hin|Hin]; cbn [negb] in Hrun.
    2:{ injection Hrun as <- <- <-. split; [done|]. eapply Hexit; eauto. }
    destruct (PDC_mbtowc (drop (Z.to_nat i) buf) (n - i)) as [r wc] eqn:Hd.
    destruct (Z.leb_spec r 0) as [Hr|Hr].
    { injection Hrun as <- <- <-. split; [done|]. eapply Hstop; eauto. }
    destruct (decode_loop fuel buf n (i + r) (<[p := wc]> wstr) (S p) w)
      as [[res1 w1] t1] eqn:Hrec.
    injection Hrun as <- <- <-.
    apply IH in Hrec as [-> HP]; [|lia..].
    split; [done|]. eapply Hstep; eauto.
Qed.

Lemma strlen_bounds (buf : list Z) (len : Z) :
  strlen buf = Some len → 0 ≤ len < Z.of_nat (length buf).
Proof.
  revert len. induction buf as [|c rest IH]; intros len; cbn; [done|].
  destruct (c =? 0).
  - intros [= <-]. lia.
  - destruct (strlen rest) as [l|]; [|done]. cbn. intros [= <-].
    specialize (IH l eq_refl). lia.
Qed.

Lemma wcs_scan_bounds (buf : list Z) (len : Z) :
  wcs_scan buf = Some len → 0 ≤ len < Z.of_nat (length buf).
Proof.
  revert len. induction buf as [|c rest IH]; intros len; cbn; [done|].
  destruct (c =? 0).
  - intros [= <-]. lia.
  - destruct (wcs_scan rest) as [l|]; [|done]. cbn. intros [= <-].
    specialize (IH l eq_refl). lia.
Qed.

Lemma clamp_ge (n len : Z) : len ≤ clamp n len.
Proof. unfold clamp. destruct (n <? 0) eqn:?, (n <? len) eqn:?; cbn; lia. Qed.

Lemma cap_le (n : Z) : cap n ≤ 512.
Proof. unfold cap. destruct (n >? 512) eqn:?; lia. Qed.

Lemma cap_nonneg (n : Z) : 0 ≤ n → 0 ≤ cap n.
Proof. unfold cap. destruct (n >? 512) eqn:?; lia. Qed.

(** The runs of the three engines, loop by loop. *)
Lemma winsnstr_narrow_run a buf n (w : World) :
  winsnstr false (Some a) (Some buf) n w =
  match strlen buf with
  | None => (Fault, w, [])
  | Some len =>
      let '(r, w', t) :=
        insch_backwards (fetch_narrow buf) (Some a) (Z.to_nat (clamp n len)) w in
      (finish r, w', t)
  end.
Proof.
  unfold winsnstr. rewrite bind_run. unfold call_strlen.
  destruct (strlen buf) as [len|]; [|done].
  rewrite bind_run.
  destruct (insch_backwards _ _ _ w) as [[[[e|]| |] w'] t]; cbn;
    by rewrite ?app_nil_r.
Qed.

(** The length scan: its value, and its events. *)
Lemma wcs_scan_loop_run p len (w : World) :
  wcs_scan_loop p len w =
  (from_option (λ l, Done (len + l)) Fault (wcs_scan p), w, scan_events p len).
Proof.
  revert len. induction p as [|c p IH]; intros len; cbn; [done|].
  destruct (c =? 0); cbn; [by rewrite Z.add_0_r|].
  rewrite IH. destruct (wcs_scan p) as [l|]; cbn; [|done].
  do 3 f_equal. lia.
Qed.

Lemma scan_events_quiet p len :
  quiet (scan_events p len) ∧ reads (scan_events p len) = [].
Proof.
  revert len. induction p as [|c p IH]; intros len; cbn; [by repeat split|].
  destruct (c =? 0); [by repeat split|]. apply IH.
Qed.

Lemma scan_events_seq p len l :
  wcs_scan p = Some l → scan_events p len = Scan <$> seqZ len (l + 1).
Proof.
  revert len l. induction p as [|c p IH]; intros len l; cbn; [done|].
  destruct (c =? 0).
  - intros [= <-]. rewrite seqZ_cons, seqZ_nil by lia. done.
  - destruct (wcs_scan p) as [l'|] eqn:Hl'; [|done]. cbn. intros [= <-].
    pose proof (wcs_scan_bounds _ _ Hl').
    rewrite (seqZ_cons len) by lia. cbn.
    rewrite (IH (len + 1) l' eq_refl). do 3 f_equal; lia.
Qed.


Lemma wins_nwstr_run a buf n (w : World) :
  wins_nwstr (Some a) (Some buf) n w =
  match wcs_scan buf with
  | None => (Fault, w, scan_events buf 0)
  | Some len =>
      let '(r, w', t) :=
        insch_backwards (fetch_wide buf) (Some a) (Z.to_nat (clamp n len)) w in
      (finish r, w', scan_events buf 0 ++ t)
  end.
Proof.
  unfold wins_nwstr. rewrite bind_run. unfold call_wcs_scan.
  rewrite wcs_scan_loop_run.
  destruct (wcs_scan buf) as [len|]; [|done]. cbn [from_option Z.add].
  rewrite bind_run.
  destruct (insch_backwards _ _ _ w) as [[[[e|]| |] w'] t]; cbn;
    by rewrite ?app_nil_r.
Qed.

Lemma winsnstr_wide_run a buf n (w : World) :
  winsnstr true (Some a) (Some buf) n w =
  match strlen buf with
  | None => (Fault, w, [])
  | Some len =>
      let m := cap (clamp n len) in
      match decode_loop (Z.to_nat m) buf m 0 (replicate 513 0) 0%nat w with
      | (Done (wstr, p), w1, t1) =>
          let '(r, w', t2) :=
            insch_backwards (fetch_local wstr) (Some a) p w1 in
          (finish r, w', t1 ++ t2)
      | (Fault, w1, t1) => (Fault, w1, t1)
      | (OutOfFuel, w1, t1) => (OutOfFuel, w1, t1)
      end
  end.
Proof.
  unfold winsnstr. rewrite bind_run. unfold call_strlen.
  destruct (strlen buf) as [len|]; [|done]. cbn zeta.
  rewrite bind_run.
  destruct (decode_loop _ _ _ _ _ _ w) as [[[[wstr p]| |] w1] t1]; try done.
  rewrite bind_run.
  destruct (insch_backwards _ _ _ w1) as [[[[e|]| |] w'] t]; cbn;
    by rewrite ?app_nil_r.
Qed.

End Runs.

(** ** The insertion loops *)

Ltac trace_unfold :=
  unfold insch_calls, inserted, decode_calls, decoded, reads.

Ltac use_quiet H :=
  let Hq1 := fresh in let Hq2 := fresh in
  let Hq3 := fresh in let Hq4 := fresh in
  destruct H as (Hq1 & Hq2 & Hq3 & Hq4);
  unfold insch_calls, inserted, decode_calls, decoded in Hq1, Hq2, Hq3, Hq4;
  rewrite ?omap_app, ?Hq1, ?Hq2, ?Hq3, ?Hq4.

Lemma quiet_nil : quiet [].
Proof. by repeat split. Qed.

Lemma quiet_read (i : Z) : quiet [Read i].
Proof. by repeat split. Qed.

Section Loops.
Context {World : Type} `{!Collaborators World}.
Context (fetch : nat → @M World chtype) (arr : list Z) (f : Z → chtype)
  (ev : nat → list event) (win : WINDOW_ptr).
Context (Hfetch : fetches fetch arr f ev) (Hquiet : ∀ k, quiet (ev k)).

(** The store after the loop is the store after its [winsch] calls, the
    statuses in the trace are the ones [winsch] returned, and a failed call
    is the last one: it ends the loop with [ERR], and the units inserted are
    those of the calls before it. *)
Lemma insch_backwards_calls n w res w' t :
  insch_backwards fetch win n w = (res, w', t) →
  replay win (insch_calls t).*1 w = (insch_calls t, w') ∧
  decode_calls t = [] ∧ decoded t = [] ∧
  ∀ k ch, insch_calls t !! k = Some (ch, ERR) →
    res = Done (Some ERR) ∧ length (insch_calls t) = S k ∧
    inserted t = take k (insch_calls t).*1.
Proof using Hfetch Hquiet.
  revert n w res w' t. trace_unfold.
  apply (insch_backwards_run fetch arr f ev win); [exact Hfetch|..].
  - intros w. by repeat split.
  - intros n w _. use_quiet (Hquiet n). by repeat split.
  - intros n w c w1 _ Hw. use_quiet (Hquiet n). cbn. rewrite Hw.
    do 3 (split; [done|]). intros k ch Hk.
    destruct k as [|k]; [done|]. by destruct k.
  - intros n w c r w1 res w' t _ Hw Hr _ (Hrep & Hdc & Hd & Hab).
    use_quiet (Hquiet n). cbn. rewrite Hw, Hrep.
    do 3 (split; [done|]). intros k ch Hk.
    destruct k as [|k]; cbn in Hk; [congruence|].
    apply Hab in Hk as (-> & -> & ->).
    by destruct (Z.eqb_spec r ERR).
Qed.

(** Inside the array the loop does not fault; it offers the first [n]
    elements to [winsch] last one first, all of them unless a call fails. *)
Lemma insch_backwards_units n w res w' t :
  insch_backwards fetch win n w = (res, w', t) →
  (n ≤ length arr)%nat →
  (insch_calls t).*1 `prefix_of` reverse (f <$> take n arr) ∧
  ((res = Done None ∧ (insch_calls t).*1 = reverse (f <$> take n arr) ∧
    ∀ ch, (ch, ERR) ∉ insch_calls t) ∨
   (res = Done (Some ERR) ∧ ∃ ch, (ch, ERR) ∈ insch_calls t)).
Proof using Hfetch Hquiet.
  revert n w res w' t. trace_unfold.
  apply (insch_backwards_run fetch arr f ev win
    (λ n _ res _ t, (n ≤ length arr)%nat → _ ∧ (_ ∨ _))); [exact Hfetch|..].
  - intros w _. split; [done|]. left. repeat split; try done.
    intros ch Hch. by apply elem_of_nil in Hch.
  - intros n w Hnone Hlen. apply lookup_ge_None in Hnone. lia.
  - intros n w c w1 Hc _ _. use_quiet (Hquiet n). cbn.
    rewrite (take_S_r _ _ _ Hc), fmap_app, reverse_app. cbn.
    split; [apply prefix_cons, prefix_nil|].
    right. split; [done|]. exists (f c). left.
  - intros n w c r w1 res w' t Hc _ Hr _ IH Hlen.
    destruct IH as [Hpre Hres]; [lia|]. use_quiet (Hquiet n). cbn.
    rewrite (take_S_r _ _ _ Hc), fmap_app, reverse_app. cbn.
    split; [by apply prefix_cons|].
    destruct Hres as [(-> & -> & Hno)|(-> & ch & Hch)]; [left|right].
    + repeat split; try done. intros ch [[= _ ?]|Hch]%elem_of_cons; [done|].
      by apply (Hno ch).
    + split; [done|]. exists ch. by right.
Qed.

(** A loop whose fetches read no source position reads none. *)
Lemma insch_backwards_no_reads n w res w' t :
  (∀ k, reads (ev k) = []) →
  insch_backwards fetch win n w = (res, w', t) → reads t = [].
Proof using Hfetch.
  intros Hev. revert n w res w' t.
  apply (insch_backwards_run fetch arr f ev win (λ _ _ _ _ t, reads t = []));
    [exact Hfetch|..].
  - done.
  - intros. apply Hev.
  - intros. by rewrite reads_app, Hev.
  - intros n w c r w1 res w' t _ _ _ _ IH. rewrite reads_app, Hev. exact IH.
Qed.

End Loops.

(** ** The decode loop *)

Section Decoding.
Context {World : Type} `{!Collaborators World}.

(** The decode loop calls no [winsch]. *)
Lemma decode_loop_no_insch fuel buf n i wstr p (w : World) res w' t :
  0 ≤ i → n - i ≤ Z.of_nat fuel →
  decode_loop fuel buf n i wstr p w = (res, w', t) →
  w' = w ∧ insch_calls t = [] ∧ inserted t = [].
Proof.
  intros Hi Hfuel Hrun.
  eapply (decode_loop_run buf n
            (λ _ _ _ _ t, insch_calls t = [] ∧ inserted t = [])) in Hrun;
    [exact Hrun|done..].
Qed.

(** The loop ends by itself within the fuel of [n - i] iterations. *)
Lemma decode_loop_terminates fuel buf n i wstr p (w : World) res w' t :
  0 ≤ i → n - i ≤ Z.of_nat fuel →
  decode_loop fuel buf n i wstr p w = (res, w', t) →
  res ≠ OutOfFuel.
Proof.
  intros Hi Hfuel Hrun.
  eapply (decode_loop_run buf n (λ _ _ _ res _, res ≠ OutOfFuel)) in Hrun;
    [by destruct Hrun|done..].
Qed.

(** Its calls to the decoder form a chain from the entry state. *)
Lemma decode_loop_chain fuel buf n i wstr p (w : World) res w' t :
  0 ≤ i → n - i ≤ Z.of_nat fuel →
  decode_loop fuel buf n i wstr p w = (res, w', t) →
  decode_chain n p i (decode_calls t).
Proof.
  intros Hi Hfuel Hrun.
  eapply (decode_loop_run buf n
            (λ i p _ _ t, decode_chain n p i (decode_calls t))) in Hrun
    as [_ ?]; [done| | | | |done..].
  - done.
  - done.
  - intros. cbn. repeat split; done.
  - intros. cbn. repeat split; try done. lia.
Qed.

(** When it returns, the units decoded stand in the array in decode order
    below the unit pointer, provided the array has room for one unit per
    budgeted byte. *)
Lemma decode_loop_result fuel buf n i wstr p (w : World) wstr' p' w' t :
  0 ≤ i → n - i ≤ Z.of_nat fuel →
  decode_loop fuel buf n i wstr p w = (Done (wstr', p'), w', t) →
  Z.of_nat p + Z.max 0 (n - i) ≤ Z.of_nat (length wstr) →
  length wstr' = length wstr ∧ p' = (p + length (decoded t))%nat ∧
  Z.of_nat p' ≤ Z.of_nat p + Z.max 0 (n - i) ∧
  take p' wstr' = take p wstr ++ decoded t.
Proof.
  intros Hi Hfuel Hrun.
  eapply (decode_loop_run buf n
    (λ i p wstr res t, ∀ wstr' p', res = Done (wstr', p') →
       Z.of_nat p + Z.max 0 (n - i) ≤ Z.of_nat (length wstr) →
       length wstr' = length wstr ∧ p' = (p + length (decoded t))%nat ∧
       Z.of_nat p' ≤ Z.of_nat p + Z.max 0 (n - i) ∧
       take p' wstr' = take p wstr ++ decoded t)) in Hrun as [_ HP];
    [by apply HP| | | | |done..].
  - done.
  - intros i0 p0 wstr0 c _ _ _ wstr1 p1 [= <- <-] _. cbn.
    rewrite app_nil_r. repeat split; lia.
  - intros i0 p0 wstr0 c r wc _ _ _ _ _ Hr wstr1 p1 [= <- <-] _. cbn.
    replace (r <=? 0) with true by (symmetry; apply Z.leb_le; lia).
    cbn. rewrite app_nil_r. repeat split; lia.
  - intros i0 p0 wstr0 c r wc res0 t0 _ _ _ Hin _ Hr IH wstr1 p1 Hres Hroom.
    destruct (IH wstr1 p1 Hres) as (Hlen & Hp & Hle & Htake).
    { rewrite length_insert. lia. }
    rewrite length_insert in Hlen. cbn.
    replace (r <=? 0) with false by (symmetry; apply Z.leb_gt; lia).
    cbn. fold (decoded t0). repeat split; [done|lia|lia|].
    rewrite Htake.
    rewrite (take_S_r _ _ wc) by (apply list_lookup_insert_eq; lia).
    rewrite take_insert_ge by lia. by rewrite <- app_assoc.
Qed.

(** A decode step that reports a non-positive count is the last thing the
    loop does: no further call to the decoder, no further read. *)
Lemma decode_loop_stoppage fuel buf n i wstr p (w : World) res w' t :
  0 ≤ i → n - i ≤ Z.of_nat fuel →
  decode_loop fuel buf n i wstr p w = (res, w', t) →
  ∀ j k i' max r wc,
    decode_calls t !! j = Some (k, i', max, r, wc) → r ≤ 0 →
    length (decode_calls t) = S j ∧ last (reads t) = Some i' ∧
    decoded t = (take j (decode_calls t)).*2 ∧
    ∃ wstr' p', res = Done (wstr', p').
Proof.
  intros Hi Hfuel Hrun.
  eapply (decode_loop_run buf n
    (λ _ _ _ res t, ∀ j k i' max r wc,
       decode_calls t !! j = Some (k, i', max, r, wc) → r ≤ 0 →
       length (decode_calls t) = S j ∧ last (reads t) = Some i' ∧
       decoded t = (take j (decode_calls t)).*2 ∧
       ∃ wstr' p', res = Done (wstr', p'))) in Hrun as [_ HP];
    [exact HP| | | | |done..].
  - done.
  - done.
  - intros i0 p0 wstr0 c r wc _ _ _ _ _ Hr j k i' max r' wc' Hj Hr'.
    destruct j as [|j]; [|done]. cbn in Hj. injection Hj as <- <- <- <- <-.
    cbn. replace (r <=? 0) with true by (symmetry; apply Z.leb_le; lia).
    repeat split; eauto.
  - intros i0 p0 wstr0 c r wc res0 t0 _ _ _ _ _ Hr IH j k i' max r' wc' Hj Hr'.
    destruct j as [|j]; cbn in Hj; [injection Hj as <- <- <- <- <-; lia|].
    destruct (IH _ _ _ _ _ _ Hj Hr') as (Hlen & Hlast & Hdec & Hres).
    cbn. replace (r <=? 0) with false by (symmetry; apply Z.leb_gt; lia).
    cbn. fold (decode_calls t0) (reads t0) (decoded t0).
    rewrite Hlen, Hdec. repeat split; try done.
    destruct (reads t0) as [|i1 rest]; [done|]. exact Hlast.
Qed.

End Decoding.

(** Along a chain the write index stays at or below the byte cursor's
    advance, and the cursor stays inside the budget. *)
Lemma decode_chain_bounds n p i cs :
  0 ≤ i → decode_chain n p i cs →
  Forall (λ '(k, i', max, r, _),
            (p ≤ k)%nat ∧ Z.of_nat k - Z.of_nat p ≤ i' - i ∧
            i ≤ i' < n ∧ 0 < max ∧ i' + max = n) cs.
Proof.
  revert p i. induction cs as [|[[[[k i'] max] r] wc] rest IH];
    intros p i Hi Hchain; [done|].
  destruct Hchain as (-> & -> & Hin & -> & Hstop & Hrest).
  constructor; [lia|].
  destruct (Z.leb_spec r 0) as [Hr|Hr]; [by rewrite Hstop|].
  apply IH in Hrest; [|lia].
  eapply Forall_impl; [exact Hrest|].
  intros [[[[k i'] max] r'] wc']. lia.
Qed.

(** ** The engines as a whole *)

Section Engines.
Context {World : Type} `{!Collaborators World}.

Lemma clamp_nonneg_of_strlen buf len n :
  strlen buf = Some len → 0 ≤ cap (clamp n len) ≤ 512 ∧ 0 ≤ clamp n len.
Proof.
  intros Hlen%strlen_bounds. pose proof (clamp_ge n len).
  pose proof (cap_le (clamp n len)).
  pose proof (cap_nonneg (clamp n len)). lia.
Qed.

(** What every run of an engine owes to [winsch]: the store it ends in is
    the store its [winsch] calls produced, and a failed call is its last. *)
Lemma engine_calls wide win str n (w : World) res w' t :
  winsnstr wide win str n w = (res, w', t) ∨
  wins_nwstr win str n w = (res, w', t) →
  replay win (insch_calls t).*1 w = (insch_calls t, w') ∧
  ∀ k ch, insch_calls t !! k = Some (ch, ERR) →
    res = Done ERR ∧ length (insch_calls t) = S k ∧
    inserted t = take k (insch_calls t).*1.
Proof.
  assert (Hnil : ∀ r, (r, w, []) = (res, w', t) →
    replay win (insch_calls t).*1 w = (insch_calls t, w') ∧
    ∀ k ch, insch_calls t !! k = Some (ch, ERR) →
      res = Done ERR ∧ length (insch_calls t) = S k ∧
      inserted t = take k (insch_calls t).*1).
  { intros r [= <- <- <-]. by split. }
  destruct win as [a|], str as [buf|];
    try (intros [Hrun|Hrun]; by apply (Hnil (Done ERR))).
  intros [Hrun|Hrun]; [destruct wide|].
  - rewrite winsnstr_wide_run in Hrun.
    destruct (strlen buf) as [len|] eqn:Hlen; [|by apply (Hnil Fault)].
    destruct (clamp_nonneg_of_strlen buf len n Hlen) as [Hcap _].
    cbn zeta in Hrun.
    destruct (decode_loop _ _ _ _ _ _ w) as [[r1 w1] t1] eqn:Hdec.
    apply decode_loop_no_insch in Hdec as (-> & Hc1 & Hi1); [|lia..].
    destruct r1 as [[wstr p]| |]; cycle 1.
    + injection Hrun as <- <- <-. rewrite Hc1, Hi1. by split.
    + injection Hrun as <- <- <-. rewrite Hc1, Hi1. by split.
    + destruct (insch_backwards _ _ _ w) as [[r2 w2] t2] eqn:Hins.
      injection Hrun as <- <- <-.
      rewrite insch_calls_app, inserted_app, Hc1, Hi1. cbn [app].
      eapply insch_backwards_calls in Hins as (Hrep & _ & _ & Hab);
        [|apply fetch_local_fetches|intros; apply quiet_nil].
      split; [done|]. intros k ch Hk. by apply Hab in Hk as (-> & ? & ?).
  - rewrite winsnstr_narrow_run in Hrun.
    destruct (strlen buf) as [len|] eqn:Hlen; [|by apply (Hnil Fault)].
    destruct (insch_backwards _ _ _ w) as [[r2 w2] t2] eqn:Hins.
    injection Hrun as <- <- <-.
    eapply insch_backwards_calls in Hins as (Hrep & _ & _ & Hab);
      [|apply fetch_narrow_fetches|intros; apply quiet_read].
    split; [done|]. intros k ch Hk. by apply Hab in Hk as (-> & ? & ?).
  - rewrite wins_nwstr_run in Hrun.
    destruct (scan_events_quiet buf 0) as [(Hs1 & Hs2 & _) _].
    destruct (wcs_scan buf) as [len|] eqn:Hlen.
    2:{ injection Hrun as <- <- <-. rewrite Hs1, Hs2. by split. }
    destruct (insch_backwards _ _ _ w) as [[r2 w2] t2] eqn:Hins.
    injection Hrun as <- <- <-.
    rewrite insch_calls_app, inserted_app, Hs1, Hs2. cbn [app].
    eapply insch_backwards_calls in Hins as (Hrep & _ & _ & Hab);
      [|apply fetch_wide_fetches|intros; apply quiet_read].
    split; [done|]. intros k ch Hk. by apply Hab in Hk as (-> & ? & ?).
Qed.

(** A relation on stores that every [winsch] call respects is respected by
    any sequence of them. *)
Lemma replay_frame (frame : World → World → Prop) win :
  (∀ w, frame w w) →
  (∀ w1 w2 w3, frame w1 w2 → frame w2 w3 → frame w1 w3) →
  (∀ ch w, frame w (winsch win ch w).2) →
  ∀ us w, frame w (replay win us w).2.
Proof.
  intros Hrefl Htrans Hstep us.
  induction us as [|u us IH]; intros w; cbn; [apply Hrefl|].
  specialize (Hstep u w). destruct (winsch win u w) as [r w1].
  specialize (IH w1). destruct (replay win us w1) as [cs w2].
  by eapply Htrans.
Qed.

(** When no call fails, the calls made for a list of units are the
    insertion step on that list, run to its end. *)
Lemma replay_without_failure win (us : list chtype) (w : World) cs w' :
  replay win us w = (cs, w') → (∀ ch, (ch, ERR) ∉ cs) →
  offer_units win us w = (None, w', cs).
Proof.
  revert w cs. induction us as [|u us IH]; intros w cs; cbn.
  - by intros [= <- <-].
  - destruct (winsch win u w) as [r w1].
    destruct (replay win us w1) as [cs1 w2] eqn:Hrep.
    intros [= <- <-] Hno.
    destruct (Z.eqb_spec r ERR) as [->|_]; [destruct (Hno u); left|].
    rewrite (IH w1 cs1 Hrep); [done|].
    intros ch Hch. apply (Hno ch). by right.
Qed.

End Engines.

(** ** Null arguments *)

(** C3. A call to [winsnstr] or [wins_nwstr] with a null window or a null
    source returns [ERR]; its trace is empty, so no call to [winsch] was
    made, and the store is the one it was given. *)
Theorem null_argument_is_rejected {World : Type} `{!Collaborators World}
    (wide : bool) (win : WINDOW_ptr) (str : string_ptr) (n : Z) (w : World) :
  winsnstr wide None str n w = (Done ERR, w, []) ∧
  winsnstr wide win None n w = (Done ERR, w, []) ∧
  wins_nwstr None str n w = (Done ERR, w, []) ∧
  wins_nwstr win None n w = (Done ERR, w, []).
Proof. repeat split; try done; by destruct win. Qed.

(** ** Failure of the single-cell insert *)

(** C4. If the k-th call to [winsch] of a run of [winsnstr] or
    [wins_nwstr] returns [ERR], the run returns [ERR], the k-th call is its
    last call to [winsch], the units inserted are those of the k-1 calls
    before it, and the store it ends in is the one those k calls produced:
    nothing is undone. *)
Theorem winsch_failure_aborts {World : Type} `{!Collaborators World}
    (wide : bool) (win : WINDOW_ptr) (str : string_ptr) (n : Z) (w : World)
    (res : result Z) (w' : World) (t : list event) (k : nat) (ch : chtype) :
  winsnstr wide win str n w = (res, w', t) ∨
  wins_nwstr win str n w = (res, w', t) →
  (1 ≤ k)%nat →
  insch_calls t !! (k - 1)%nat = Some (ch, ERR) →
  res = Done ERR ∧
  length (insch_calls t) = k ∧
  inserted t = take (k - 1) (insch_calls t).*1 ∧
  length (inserted t) = (k - 1)%nat ∧
  replay win (insch_calls t).*1 w = (insch_calls t, w').
Proof.
  intros Hrun Hk Hfail.
  apply engine_calls in Hrun as [Hrep Hab].
  destruct (Hab _ _ Hfail) as (-> & Hlen & Hins).
  repeat split; [lia|done| |done].
  rewrite Hins, length_take, length_fmap. lia.
Qed.

(** With room for one cell, the second insert of "ABC" fails: 'C' stays
    inserted, the insert of 'B' fails, and 'A' is never offered. *)
Lemma winsch_failure_aborts_witness :
  let run := winsnstr (World:=nat) false (Some 1%nat) (Some [65; 66; 67; 0])
               (-1) 1%nat in
  run = (Done ERR, 0%nat, [Read 2; Insch 67 OK; Read 1; Insch 66 ERR]) ∧
  run.1.1 = Done ERR ∧
  length (insch_calls run.2) = 2%nat ∧
  inserted run.2 = take 1 (insch_calls run.2).*1 ∧
  length (inserted run.2) = 1%nat ∧
  replay (World:=nat) (Some 1%nat) (insch_calls run.2).*1 1%nat
    = (insch_calls run.2, run.1.2).
Proof.
  split; [reflexivity|].
  apply (winsch_failure_aborts (World:=nat) false (Some 1%nat)
           (Some [65; 66; 67; 0]) (-1) 1%nat _ _ _ 2%nat 66).
  - left. reflexivity.
  - lia.
  - reflexivity.
Defined.

(** ** The frame of the engines *)

(** C9. The engines change the store only through their [winsch] calls on
    the target window: the store a run ends in is the store those calls
    produce from the store it started in.  Hence whatever [winsch] leaves
    alone on that window (the cursor position, every other line, every
    other field and window) a successful or failing run leaves alone. *)
Theorem engine_changes_only_what_winsch_changes {World : Type}
    `{!Collaborators World} (frame : World → World → Prop) (win : WINDOW_ptr)
    (wide : bool) (str : string_ptr) (n : Z) (w : World)
    (res : result Z) (w' : World) (t : list event) :
  (∀ w, frame w w) →
  (∀ w1 w2 w3, frame w1 w2 → frame w2 w3 → frame w1 w3) →
  (∀ ch w, frame w (winsch win ch w).2) →
  winsnstr wide win str n w = (res, w', t) ∨
  wins_nwstr win str n w = (res, w', t) →
  replay win (insch_calls t).*1 w = (insch_calls t, w') ∧ frame w w'.
Proof.
  intros Hrefl Htrans Hstep Hrun.
  apply engine_calls in Hrun as [Hrep _]. split; [done|].
  pose proof (replay_frame frame win Hrefl Htrans Hstep
                (insch_calls t).*1 w) as Hframe.
  by rewrite Hrep in Hframe.
Qed.

(** The model of [winsch] leaves everything but the cursor line alone. *)
Lemma frame_refl a s : SpecModel.frame a s s.
Proof.
  split; [done|]. split; [done|].
  destruct (SpecModel.windows s !! a); constructor. by repeat split.
Qed.

Lemma frame_trans a s1 s2 s3 :
  SpecModel.frame a s1 s2 → SpecModel.frame a s2 s3 → SpecModel.frame a s1 s3.
Proof.
  intros (Hc1 & Ho1 & Hw1) (Hc2 & Ho2 & Hw2). split; [congruence|].
  split; [intros b Hb; rewrite Ho2, Ho1; done|].
  destruct Hw1 as [W1 W2 H12|]; inversion Hw2 as [W2' W3 H23|]; subst;
    constructor.
  destruct H12 as (Hy & Hx & Hmy & Hmx & Hl & Hrows).
  destruct H23 as (Hy' & Hx' & Hmy' & Hmx' & Hl' & Hrows').
  repeat split; try congruence.
  intros row Hrow. rewrite Hrows', Hrows; [done..|congruence].
Qed.

Lemma insert_cell_frame a ch s :
  SpecModel.frame a s (SpecModel.insert_cell (Some a) ch s).2.
Proof.
  unfold SpecModel.insert_cell.
  destruct (SpecModel.windows s !! a) as [W|] eqn:HW; [|apply frame_refl].
  destruct (SpecModel.cursor_valid W); [|apply frame_refl].
  destruct (SpecModel._y W !! _) as [line|] eqn:Hline; [|apply frame_refl].
  cbn. repeat split; cbn.
  - intros b Hb. by rewrite lookup_insert_ne.
  - rewrite HW, lookup_insert_eq. constructor. repeat split; cbn.
    + by rewrite length_insert.
    + intros row Hrow. by rewrite list_lookup_insert_ne.
Qed.

(** The run of "AB" into the first of two blank lines. *)
Lemma engine_changes_only_what_winsch_changes_witness :
  let s := SpecModel.blank_screen 2 5 0 1 in
  let run := winsnstr false (Some 1%nat) (Some [65; 66; 0]) (-1) s in
  replay (Some 1%nat) (insch_calls run.2).*1 s = (insch_calls run.2, run.1.2) ∧
  SpecModel.frame 1 s run.1.2.
Proof.
  intros s run.
  apply (engine_changes_only_what_winsch_changes (SpecModel.frame 1)
           (Some 1%nat) false (Some [65; 66; 0]) (-1) s run.1.1 run.1.2 run.2).
  - apply frame_refl.
  - apply frame_trans.
  - apply insert_cell_frame.
  - left. fold run. clearbody run. by destruct run as [[r s'] t].
Defined.

(** ** The entry points *)

Section EntryPoints.
Context {World : Type} `{!Collaborators World}.

Lemma bind_get_stdscr (m : WINDOW_ptr → M Z) (w : World) :
  (get_stdscr ≫= m) w = m (stdscr w) w.
Proof.
  rewrite bind_run. unfold get_stdscr.
  by destruct (m (stdscr w) w) as [[r w'] t].
Qed.

Lemma bind_call_move y x (m : M Z) (w : World) :
  (call_move y x ≫= λ r, if r =? ERR then mret ERR else m) w =
  let '(r, w') := move y x w in
  if r =? ERR then (Done ERR, w', [Move r])
  else let '(res, w'', t) := m w' in (res, w'', Move r :: t).
Proof.
  rewrite bind_run. unfold call_move. destruct (move y x w) as [r w'].
  destruct (r =? ERR); [done|]. by destruct (m w') as [[res w''] t].
Qed.

Lemma bind_call_wmove win y x (m : M Z) (w : World) :
  (call_wmove win y x ≫= λ r, if r =? ERR then mret ERR else m) w =
  let '(r, w') := wmove win y x w in
  if r =? ERR then (Done ERR, w', [Move r])
  else let '(res, w'', t) := m w' in (res, w'', Move r :: t).
Proof.
  rewrite bind_run. unfold call_wmove. destruct (wmove win y x w) as [r w'].
  destruct (r =? ERR); [done|]. by destruct (m w') as [[res w''] t].
Qed.

End EntryPoints.

(** C8. Every convenience entry point is the one insert operation with
    defaults filled in: the current window for a missing window, no limit
    for a missing limit, and for the [mv] variants a cursor move first whose
    failure is returned with nothing inserted.  The narrow entry points
    forward to [winsnstr], the wide ones to [wins_nwstr]. *)
Theorem entry_points_only_forward {World : Type} `{!Collaborators World}
    (wide : bool) (win : WINDOW_ptr) (y x : Z) (str : string_ptr) (n : Z)
    (w : World) :
  (insstr wide str w = winsnstr wide (stdscr w) str (-1) w ∧
   winsstr wide win str w = winsnstr wide win str (-1) w ∧
   insnstr wide str n w = winsnstr wide (stdscr w) str n w) ∧
  (insstr wide str w = spec_forward (winsnstr wide) None None str None w ∧
   winsstr wide win str w
     = spec_forward (winsnstr wide) (Some win) None str None w ∧
   insnstr wide str n w
     = spec_forward (winsnstr wide) None None str (Some n) w ∧
   mvinsstr wide y x str w
     = spec_forward (winsnstr wide) None (Some (y, x)) str None w ∧
   mvwinsstr wide win y x str w
     = spec_forward (winsnstr wide) (Some win) (Some (y, x)) str None w ∧
   mvinsnstr wide y x str n w
     = spec_forward (winsnstr wide) None (Some (y, x)) str (Some n) w ∧
   mvwinsnstr wide win y x str n w
     = spec_forward (winsnstr wide) (Some win) (Some (y, x)) str (Some n) w) ∧
  (ins_wstr str w = spec_forward wins_nwstr None None str None w ∧
   wins_wstr win str w = spec_forward wins_nwstr (Some win) None str None w ∧
   ins_nwstr str n w = spec_forward wins_nwstr None None str (Some n) w ∧
   mvins_wstr y x str w
     = spec_forward wins_nwstr None (Some (y, x)) str None w ∧
   mvwins_wstr win y x str w
     = spec_forward wins_nwstr (Some win) (Some (y, x)) str None w ∧
   mvins_nwstr y x str n w
     = spec_forward wins_nwstr None (Some (y, x)) str (Some n) w ∧
   mvwins_nwstr win y x str n w
     = spec_forward wins_nwstr (Some win) (Some (y, x)) str (Some n) w).
Proof.
  unfold insstr, winsstr, insnstr, mvinsstr, mvwinsstr, mvinsnstr, mvwinsnstr,
    ins_wstr, wins_wstr, ins_nwstr, mvins_wstr, mvwins_wstr, mvins_nwstr,
    mvwins_nwstr, spec_forward.
  cbn [default from_option id].
  rewrite !bind_get_stdscr, !bind_call_move, !bind_call_wmove.
  destruct (move y x w) as [r w1], (wmove win y x w) as [r' w1'].
  destruct (r =? ERR), (r' =? ERR); rewrite ?bind_get_stdscr; by repeat split.
Qed.

(** ** The wide build of [winsnstr] *)

Lemma decode_chain_length n p i cs :
  0 ≤ i → decode_chain n p i cs → Z.of_nat (length cs) ≤ Z.max 0 (n - i).
Proof.
  revert p i. induction cs as [|[[[[k i'] max] r] wc] rest IH];
    intros p i Hi Hchain; cbn [length]; [lia|].
  destruct Hchain as (_ & _ & Hin & _ & Hstop & Hrest).
  destruct (Z.leb_spec r 0) as [Hr|Hr]; [rewrite Hstop by done; cbn; lia|].
  apply IH in Hrest; lia.
Qed.

Lemma decoded_length (t : list event) :
  (length (decoded t) ≤ length (decode_calls t))%nat.
Proof.
  unfold decoded, decode_calls.
  induction t as [|[i|k i m r wc|ch r|r|i] t IH]; cbn; try done.
  destruct (r <=? 0); cbn; lia.
Qed.

Lemma inserted_length (t : list event) :
  (length (inserted t) ≤ length (insch_calls t))%nat.
Proof.
  unfold inserted, insch_calls.
  induction t as [|[i|k i m r wc|ch r|r|i] t IH]; cbn; try done.
  destruct (r =? ERR); cbn; lia.
Qed.

Section WideBuild.
Context {World : Type} `{!Collaborators World}.

(** The run of the wide build on non-null arguments: a decode phase [t1]
    that leaves the store alone, then an insertion phase [t2] that offers
    the decoded units to [winsch], last one first. *)
Lemma winsnstr_wide_shape a buf n (w : World) res w' t :
  winsnstr true (Some a) (Some buf) n w = (res, w', t) →
  (t = [] ∧ res = Fault) ∨
  ∃ m r1 t1 t2,
    0 ≤ m ≤ 512 ∧ t = t1 ++ t2 ∧
    decode_loop (Z.to_nat m) buf m 0 (replicate 513 0) 0%nat w = (r1, w, t1) ∧
    insch_calls t1 = [] ∧ inserted t1 = [] ∧
    decode_calls t2 = [] ∧ decoded t2 = [] ∧ reads t2 = [] ∧
    (insch_calls t2).*1 `prefix_of` reverse (to_chtype <$> decoded t1) ∧
    r1 ≠ OutOfFuel ∧ (r1 = Fault → t2 = [] ∧ res = Fault) ∧
    ((∃ wstr p, r1 = Done (wstr, p)) →
     (res = Done OK ∧
      (insch_calls t2).*1 = reverse (to_chtype <$> decoded t1) ∧
      ∀ ch, (ch, ERR) ∉ insch_calls t2) ∨
     (res = Done ERR ∧ ∃ ch, (ch, ERR) ∈ insch_calls t2)).
Proof.
  rewrite winsnstr_wide_run.
  destruct (strlen buf) as [len|] eqn:Hlen; [|intros [= <- <- <-]; by left].
  destruct (clamp_nonneg_of_strlen buf len n Hlen) as [Hm _].
  cbn zeta. set (m := cap (clamp n len)) in *.
  destruct (decode_loop _ _ _ _ _ _ w) as [[r1 w1] t1] eqn:Hdec.
  intros Hrun. right.
  pose proof Hdec as Hno. apply decode_loop_no_insch in Hno
    as (-> & Hc1 & Hi1); [|lia..].
  pose proof Hdec as Hterm. apply decode_loop_terminates in Hterm; [|lia..].
  destruct r1 as [[wstr p]| |]; [|injection Hrun as <- <- <-|done].
  - destruct (insch_backwards _ _ _ w) as [[r2 w2] t2] eqn:Hins.
    injection Hrun as <- <- <-.
    pose proof Hdec as Hres. apply decode_loop_result in Hres
      as (Hlw & Hp & Hple & Htake); [|rewrite ?length_replicate; lia..].
    rewrite length_replicate in Hlw. cbn in Htake.
    pose proof Hins as Hcalls. eapply insch_backwards_calls in Hcalls
      as (_ & Hdc2 & Hd2 & _);
      [|apply fetch_local_fetches|intros; apply quiet_nil].
    pose proof Hins as Hreads. eapply insch_backwards_no_reads in Hreads;
      [|apply fetch_local_fetches|done].
    eapply insch_backwards_units in Hins as [Hpre Hcases];
      [|apply fetch_local_fetches|intros; apply quiet_nil|lia].
    rewrite Htake in Hpre, Hcases.
    exists m, (Done (wstr, p)), t1, t2. repeat split; try done; try lia.
    intros _. destruct Hcases as [(-> & ? & ?)|(-> & ?)]; [left|right]; done.
  - exists m, Fault, t1, []. rewrite app_nil_r.
    repeat split; try done; try lia; try apply prefix_nil.
    by intros (? & ? & ?).
Qed.

End WideBuild.

(** C5. In the wide build, when a decode step of [winsnstr] reports a
    non-positive count, decoding stops there: that call is the last call to
    the decoder and the read before it the last read of the source.  The
    units decoded by the steps before it are then inserted, last decoded
    first, each as the cell value it converts to: they are the units of the
    calls to [winsch], the store the run ends in is the one those calls
    produce, and unless a [winsch] call fails every one of them is taken
    and the function returns [OK]. *)
Theorem decode_stoppage_is_not_an_error {World : Type} `{!Collaborators World}
    (a : nat) (buf : list Z) (n : Z) (w : World)
    (res : result Z) (w' : World) (t : list event)
    (j k : nat) (i max r wc : Z) :
  winsnstr true (Some a) (Some buf) n w = (res, w', t) →
  decode_calls t !! j = Some (k, i, max, r, wc) → r ≤ 0 →
  (∀ ch, (ch, ERR) ∉ insch_calls t) →
  length (decode_calls t) = S j ∧
  last (reads t) = Some i ∧
  decoded t = (take j (decode_calls t)).*2 ∧
  (insch_calls t).*1 = reverse (to_chtype <$> decoded t) ∧
  inserted t = reverse (to_chtype <$> decoded t) ∧
  replay (Some a) (reverse (to_chtype <$> decoded t)) w
    = (insch_calls t, w') ∧
  offer_units (Some a) (reverse (to_chtype <$> decoded t)) w
    = (None, w', insch_calls t) ∧
  res = Done OK.
Proof.
  intros Hrun Hj Hr Hno.
  pose proof (engine_calls true (Some a) (Some buf) n w res w' t
                (or_introl Hrun)) as [Hrep _].
  pose proof (replay_without_failure _ _ _ _ _ Hrep Hno) as Hoffer.
  rewrite (inserted_no_failure t Hno).
  apply winsnstr_wide_shape in Hrun as [[-> _]|Hshape]; [done|].
  destruct Hshape as (m & r1 & t1 & t2 & Hm & -> & Hdec & Hc1 & _ & Hdc2 &
                      Hd2 & Hr2 & _ & _ & _ & Hdone).
  rewrite decode_calls_app, Hdc2, app_nil_r in Hj |- *.
  rewrite reads_app, Hr2, decoded_app, Hd2, !app_nil_r.
  rewrite insch_calls_app, Hc1 in Hno, Hrep, Hoffer |- *.
  cbn [app] in Hno, Hrep, Hoffer |- *.
  eapply decode_loop_stoppage in Hdec as (Hlen & Hlast & Hdecoded & Hres);
    [|lia|lia|exact Hj|exact Hr].
  destruct (Hdone Hres) as [(-> & Hunits & _)|(_ & ch & Hch)];
    [|by apply Hno in Hch].
  rewrite Hunits in Hrep, Hoffer. by rewrite Hunits.
Qed.

(** "A" followed by the lead byte of a two-byte sequence that the budget
    cuts off: 'A' is inserted and the call returns [OK]. *)
Lemma decode_stoppage_is_not_an_error_witness :
  let s := SpecModel.blank_screen 1 5 0 1 in
  let run := winsnstr true (Some 1%nat) (Some [65; 195; 0]) (-1) s in
  run.2 = [Read 0; Mbtowc 0 0 2 1 65; Read 1; Mbtowc 1 1 1 (-1) 0;
           Insch 65 OK] ∧
  SpecModel.line_of run.1.2 1 0 = Some [32; 65; 32; 32; 32] ∧
  length (decode_calls run.2) = 2%nat ∧
  last (reads run.2) = Some 1 ∧
  decoded run.2 = (take 1 (decode_calls run.2)).*2 ∧
  (insch_calls run.2).*1 = reverse (to_chtype <$> decoded run.2) ∧
  inserted run.2 = reverse (to_chtype <$> decoded run.2) ∧
  replay (Some 1%nat) (reverse (to_chtype <$> decoded run.2)) s
    = (insch_calls run.2, run.1.2) ∧
  offer_units (Some 1%nat) (reverse (to_chtype <$> decoded run.2)) s
    = (None, run.1.2, insch_calls run.2) ∧
  run.1.1 = Done OK.
Proof.
  intros s run. split; [by vm_compute|]. split; [by vm_compute|].
  apply (decode_stoppage_is_not_an_error 1%nat [65; 195; 0] (-1)
           s run.1.1 run.1.2 run.2 1%nat 1%nat 1 1 (-1) 0).
  - fold run. clearbody run. by destruct run as [[r s'] t].
  - by vm_compute.
  - lia.
  - intros ch Hch. vm_compute in Hch.
    apply list_elem_of_singleton in Hch. discriminate Hch.
Defined.

(** C6. In the wide build [winsnstr] makes at most 512 calls to [winsch],
    whatever the source and the limit (in particular for 600 bytes and
    limit -1): the byte budget is capped at 512 before the decode loop, and
    every call to the decoder is confined to the bytes [i .. i + max - 1]
    below that budget. *)
Theorem wide_build_inserts_at_most_512 {World : Type} `{!Collaborators World}
    (win : WINDOW_ptr) (str : string_ptr) (n : Z) (w : World) :
  let '(res, w', t) := winsnstr true win str n w in
  (length (insch_calls t) ≤ 512)%nat ∧
  (length (inserted t) ≤ 512)%nat ∧
  (length (decode_calls t) ≤ 512)%nat ∧
  Forall (λ '(k, i, max, r, wc), 0 ≤ i ∧ 0 < max ∧ i + max ≤ 512)
    (decode_calls t).
Proof.
  destruct (winsnstr true win str n w) as [[res w'] t] eqn:Hrun.
  pose proof (inserted_length t) as Hins.
  enough (Hgoal : (length (insch_calls t) ≤ 512)%nat ∧
                  (length (decode_calls t) ≤ 512)%nat ∧
                  Forall (λ '(k, i, max, r, wc),
                            0 ≤ i ∧ 0 < max ∧ i + max ≤ 512) (decode_calls t))
    by (destruct Hgoal as (? & ? & ?); repeat split; [lia..|done]).
  assert (Hnil : t = [] → (length (insch_calls t) ≤ 512)%nat ∧
                  (length (decode_calls t) ≤ 512)%nat ∧
                  Forall (λ '(k, i, max, r, wc),
                            0 ≤ i ∧ 0 < max ∧ i + max ≤ 512) (decode_calls t)).
  { intros ->. cbn. repeat split; [lia..|constructor]. }
  destruct win as [a|], str as [buf|];
    try (apply Hnil; by injection Hrun as _ _ <-).
  apply winsnstr_wide_shape in Hrun as [[-> _]|Hshape]; [by apply Hnil|].
  destruct Hshape as (m & r1 & t1 & t2 & Hm & -> & Hdec & Hc1 & _ & Hdc2 &
                      _ & _ & Hpre & _).
  apply decode_loop_chain in Hdec; [|lia..].
  pose proof (decode_chain_length _ _ _ _ (Z.le_refl 0) Hdec) as Hlen.
  pose proof (decode_chain_bounds _ _ _ _ (Z.le_refl 0) Hdec) as Hbounds.
  pose proof (decoded_length t1) as Hdl.
  apply prefix_length in Hpre. rewrite length_reverse in Hpre.
  rewrite insch_calls_app, Hc1, decode_calls_app, Hdc2, app_nil_r. cbn [app].
  rewrite !length_fmap in Hpre. unfold chtype in *.
  repeat split; [lia..|].
  eapply Forall_impl; [exact Hbounds|].
  intros [[[[k i] max] r] wc]. lia.
Qed.

(** C10. The decode loop of the wide build ends within its budget of at
    most 512 iterations (the run never exhausts that fuel), and its calls to
    the decoder form a chain from [i = 0], [p = wstr]: a call is made only
    while [i < n], it is followed by another only after a positive count,
    which moves [i] forward by that count and [p] by one.  So every write
    index is below 513 and at most [i], and at most 512 units are decoded. *)
Theorem decode_loop_is_bounded {World : Type} `{!Collaborators World}
    (win : WINDOW_ptr) (str : string_ptr) (n : Z) (w : World) :
  let '(res, w', t) := winsnstr true win str n w in
  res ≠ OutOfFuel ∧
  ∃ budget, 0 ≤ budget ≤ 512 ∧
    decode_chain budget 0 0 (decode_calls t) ∧
    Forall (λ '(k, i, max, r, wc),
              (k < 513)%nat ∧ Z.of_nat k ≤ i ∧ 0 ≤ i < budget ∧
              i + max = budget) (decode_calls t) ∧
    (length (decoded t) ≤ 512)%nat.
Proof.
  destruct (winsnstr true win str n w) as [[res w'] t] eqn:Hrun.
  assert (Hnil : t = [] → res ≠ OutOfFuel → res ≠ OutOfFuel ∧
    ∃ budget, 0 ≤ budget ≤ 512 ∧
      decode_chain budget 0 0 (decode_calls t) ∧
      Forall (λ '(k, i, max, r, wc),
                (k < 513)%nat ∧ Z.of_nat k ≤ i ∧ 0 ≤ i < budget ∧
                i + max = budget) (decode_calls t) ∧
      (length (decoded t) ≤ 512)%nat).
  { intros -> Hres. split; [done|]. exists 0. cbn.
    repeat split; [lia..|constructor|lia]. }
  destruct win as [a|], str as [buf|];
    try (injection Hrun as <- _ <-; by apply Hnil).
  apply winsnstr_wide_shape in Hrun as [[-> ->]|Hshape]; [by apply Hnil|].
  destruct Hshape as (m & r1 & t1 & t2 & Hm & -> & Hdec & _ & _ & Hdc2 &
                      Hd2 & _ & _ & Hfuel & Hfault & Hdone).
  split.
  - destruct r1 as [[wstr p]| |]; [|by destruct Hfault as [_ ->]|done].
    by destruct Hdone as [(-> & _)|(-> & _)]; eauto.
  - apply decode_loop_chain in Hdec; [|lia..].
    pose proof (decode_chain_length _ _ _ _ (Z.le_refl 0) Hdec) as Hlen.
    pose proof (decode_chain_bounds _ _ _ _ (Z.le_refl 0) Hdec) as Hbounds.
    pose proof (decoded_length t1) as Hdl.
    rewrite decode_calls_app, Hdc2, decoded_app, Hd2, !app_nil_r.
    exists m. repeat split; [lia..|done| |lia].
    eapply Forall_impl; [exact Hbounds|].
    intros [[[[k i] max] r] wc]. lia.
Qed.

(** ** Insertion order on the modelled window *)

Section ReverseOrder.
Import SpecModel.

Lemma shift_in_blank (m x : nat) (u b : chtype) :
  (x < m)%nat →
  shift_in m x u (replicate m b) = replicate x b ++ u :: replicate (m - x - 1) b.
Proof.
  intros Hx. unfold shift_in.
  rewrite take_replicate, drop_replicate, Nat.min_l by lia.
  rewrite take_app, take_replicate, length_replicate, Nat.min_r by lia.
  destruct (m - x)%nat as [|k] eqn:Hk; [lia|]. cbn [take].
  rewrite take_replicate. do 3 f_equal. lia.
Qed.

Lemma shift_in_behind (m x : nat) (u v b : chtype) :
  (x + 2 ≤ m)%nat →
  shift_in m x u (replicate x b ++ v :: replicate (m - x - 1) b)
  = replicate x b ++ u :: v :: replicate (m - x - 2) b.
Proof.
  intros Hx. unfold shift_in.
  rewrite (take_app_length' (replicate x b)), (drop_app_length' (replicate x b))
    by by rewrite length_replicate.
  rewrite take_app, take_replicate, length_replicate, Nat.min_r by lia.
  destruct (m - x)%nat as [|[|k]] eqn:Hk; [lia..|]. cbn [take].
  rewrite take_replicate. do 4 f_equal. lia.
Qed.

Lemma insert_cell_ok a W s u line :
  windows s !! a = Some W → cursor_valid W = true →
  _y W !! Z.to_nat (_cury W) = Some line →
  insert_cell (Some a) u s =
  (OK, put_window a
         (set_cursor_line W
            (shift_in (Z.to_nat (_maxx W)) (Z.to_nat (_curx W)) u line)) s).
Proof. intros HW Hcur Hline. unfold insert_cell. by rewrite HW, Hcur, Hline. Qed.

(** Two turns of an insertion loop on a blank cursor line with room for two
    cells: the later element goes in first and is pushed right by the
    earlier one. *)
Lemma insert_two_cells fetch arr f ev a W s c0 c1 :
  fetches fetch arr f ev →
  arr !! 0%nat = Some c0 → arr !! 1%nat = Some c1 →
  windows s !! a = Some W → cursor_valid W = true →
  _y W !! Z.to_nat (_cury W)
    = Some (replicate (Z.to_nat (_maxx W)) blank) →
  (Z.to_nat (_curx W) + 2 ≤ Z.to_nat (_maxx W))%nat →
  ∃ s',
    insch_backwards fetch (Some a) 2 s =
      (Done None, s', ev 1%nat ++ Insch (f c1) OK :: ev 0%nat ++ [Insch (f c0) OK]) ∧
    line_of s' a (Z.to_nat (_cury W)) =
      Some (replicate (Z.to_nat (_curx W)) blank ++ [f c0; f c1] ++
            replicate (Z.to_nat (_maxx W) - Z.to_nat (_curx W) - 2) blank) ∧
    cursor_of s' a = Some (_cury W, _curx W).
Proof.
  intros Hf H0 H1 HW Hcur Hline Hroom.
  set (row := Z.to_nat (_cury W)) in *. set (x := Z.to_nat (_curx W)) in *.
  set (m := Z.to_nat (_maxx W)) in *.
  pose proof (lookup_lt_Some _ _ _ Hline) as Hrow.
  set (l1 := shift_in m x (f c1) (replicate m blank)).
  set (W1 := set_cursor_line W l1). set (s1 := put_window a W1 s).
  set (l2 := shift_in m x (f c0) l1).
  set (W2 := set_cursor_line W1 l2). set (s2 := put_window a W2 s1).
  assert (HW1 : windows s1 !! a = Some W1) by apply lookup_insert_eq.
  assert (Hline1 : _y W1 !! Z.to_nat (_cury W1) = Some l1)
    by by apply list_lookup_insert_eq.
  exists s2. split; [|split].
  - rewrite (insch_backwards_S _ _ _ _ _ _ _ Hf), H1.
    change (winsch (Some a) (f c1) s) with (insert_cell (Some a) (f c1) s).
    rewrite (insert_cell_ok a W s (f c1) _ HW Hcur Hline).
    change (OK =? ERR) with false. cbn iota. fold row x m l1 W1 s1.
    rewrite (insch_backwards_S _ _ _ _ _ _ _ Hf), H0.
    change (winsch (Some a) (f c0) s1) with (insert_cell (Some a) (f c0) s1).
    rewrite (insert_cell_ok a W1 s1 (f c0) _ HW1 Hcur Hline1).
    change (OK =? ERR) with false. cbn iota. done.
  - unfold line_of. cbn. rewrite lookup_insert_eq. cbn.
    rewrite list_lookup_insert_eq by by rewrite length_insert.
    f_equal. unfold l2, l1.
    rewrite shift_in_blank by lia. by rewrite shift_in_behind by lia.
  - unfold cursor_of. cbn. by rewrite lookup_insert_eq.
Qed.

End ReverseOrder.

(** C7. With the modelled single-cell insert, inserting "AB" without limit
    at the cursor of a blank line that has room for two cells calls
    [winsch] with 'B' first and 'A' second, returns [OK], leaves the cursor
    where it was, and the line then reads "AB" from the cursor column on.
    This holds for [winsnstr] in both builds and for [wins_nwstr]. *)
Theorem insert_AB_reads_AB (wide : bool) (s : SpecModel.screen) (a : nat)
    (W : SpecModel.WINDOW)
    (run : result Z * SpecModel.screen * list event) :
  let row := Z.to_nat (SpecModel._cury W) in
  let x := Z.to_nat (SpecModel._curx W) in
  let cols := Z.to_nat (SpecModel._maxx W) in
  SpecModel.windows s !! a = Some W →
  SpecModel.cursor_valid W = true →
  SpecModel._y W !! row = Some (replicate cols SpecModel.blank) →
  (x + 2 ≤ cols)%nat →
  run = winsnstr wide (Some a) (Some [65; 66; 0]) (-1) s ∨
  run = wins_nwstr (Some a) (Some [65; 66; 0]) (-1) s →
  run.1.1 = Done OK ∧
  insch_calls run.2 = [(66, OK); (65, OK)] ∧
  SpecModel.line_of run.1.2 a row =
    Some (replicate x SpecModel.blank ++ [65; 66] ++
          replicate (cols - x - 2) SpecModel.blank) ∧
  SpecModel.cursor_of run.1.2 a
    = Some (SpecModel._cury W, SpecModel._curx W).
Proof.
  intros row x cols HW Hcur Hline Hroom Hrun.
  assert (Hloop : ∀ fetch arr f ev,
    fetches fetch arr f ev → (∀ k, quiet (ev k)) →
    arr !! 0%nat = Some 65 → arr !! 1%nat = Some 66 → f 65 = 65 → f 66 = 66 →
    ∀ t1, insch_calls t1 = [] →
    (let '(r, s', t) := insch_backwards fetch (Some a) 2 s in
     (finish r, s', t1 ++ t)) = run →
    run.1.1 = Done OK ∧
    insch_calls run.2 = [(66, OK); (65, OK)] ∧
    SpecModel.line_of run.1.2 a row =
      Some (replicate x SpecModel.blank ++ [65; 66] ++
            replicate (cols - x - 2) SpecModel.blank) ∧
    SpecModel.cursor_of run.1.2 a
      = Some (SpecModel._cury W, SpecModel._curx W)).
  { intros fetch arr f ev Hf Hq H0 H1 Hf0 Hf1 t1 Ht1.
    destruct (insert_two_cells fetch arr f ev a W s 65 66 Hf H0 H1 HW Hcur
                Hline Hroom) as (s' & -> & Hl & Hc).
    rewrite Hf0, Hf1 in *. intros <-. cbn [fst snd finish].
    repeat split; [|done..].
    destruct (Hq 0%nat) as (Hq0 & _), (Hq 1%nat) as (Hq1 & _).
    unfold insch_calls in *. rewrite !omap_app, Ht1, Hq1. cbn.
    by rewrite omap_app, Hq0. }
  destruct Hrun as [Hrun|Hrun]; [destruct wide|].
  - rewrite winsnstr_wide_run in Hrun.
    change (strlen [65; 66; 0]) with (Some 2) in Hrun.
    cbv beta match zeta in Hrun.
    change (cap (clamp (-1) 2)) with 2 in Hrun.
    assert (decode_loop (Z.to_nat 2) [65; 66; 0] 2 0 (replicate 513 0) 0%nat s
            = (Done (<[1%nat := 66]> (<[0%nat := 65]> (replicate 513 0)),
                     2%nat), s,
               [Read 0; Mbtowc 0 0 2 1 65; Read 1; Mbtowc 1 1 1 1 66; Read 2]))
      as Hdec by (vm_compute; reflexivity).
    rewrite Hdec in Hrun.
    eapply Hloop with (f := to_chtype)
      (t1 := [Read 0; Mbtowc 0 0 2 1 65; Read 1; Mbtowc 1 1 1 1 66; Read 2]);
      cycle -1;
      [symmetry; exact Hrun|apply fetch_local_fetches
      |intros; apply quiet_nil|reflexivity..].
  - rewrite winsnstr_narrow_run in Hrun.
    change (strlen [65; 66; 0]) with (Some 2) in Hrun.
    cbv beta match zeta in Hrun.
    change (Z.to_nat (clamp (-1) 2)) with 2%nat in Hrun.
    eapply Hloop with (t1 := []); cycle -1;
      [symmetry; exact Hrun|apply fetch_narrow_fetches
      |intros; apply quiet_read|reflexivity..].
  - rewrite wins_nwstr_run in Hrun.
    change (wcs_scan [65; 66; 0]) with (Some 2) in Hrun.
    cbv beta match zeta in Hrun.
    change (Z.to_nat (clamp (-1) 2)) with 2%nat in Hrun.
    eapply Hloop with (t1 := scan_events [65; 66; 0] 0); cycle -1;
      [symmetry; exact Hrun|apply fetch_wide_fetches
      |intros; apply quiet_read|reflexivity..].
Qed.

(** "AB" into a blank line of five cells with the cursor in column 1. *)
Lemma insert_AB_reads_AB_witness :
  let run := winsnstr false (Some 1%nat) (Some [65; 66; 0]) (-1)
               (SpecModel.blank_screen 1 5 0 1) in
  run.1.1 = Done OK ∧
  insch_calls run.2 = [(66, OK); (65, OK)] ∧
  SpecModel.line_of run.1.2 1 0 = Some [32; 65; 66; 32; 32] ∧
  SpecModel.cursor_of run.1.2 1 = Some (0, 1).
Proof.
  intros run.
  apply (insert_AB_reads_AB false (SpecModel.blank_screen 1 5 0 1) 1%nat
           (SpecModel.blank_window 1 5 0 1) run).
  - reflexivity.
  - reflexivity.
  - reflexivity.
  - vm_compute. lia.
  - left. reflexivity.
Defined.

(** ** The limit *)


(** C1 (the code departs from it).  Called with limit 1 on the source
    "AB", whose length is 2, [winsnstr] in both builds and [wins_nwstr]
    insert two units, 'B' then 'A', not one: the clamp of lines 112-115 and
    260-263 replaces a limit below the length by the length. *)
Theorem limit_below_length_is_ignored :
  let s := SpecModel.blank_screen 1 5 0 1 in
  let src := Some [65; 66; 0] in
  clamp 1 2 = 2 ∧
  inserted (winsnstr false (Some 1%nat) src 1 s).2 = [66; 65] ∧
  inserted (winsnstr true (Some 1%nat) src 1 s).2 = [66; 65] ∧
  inserted (wins_nwstr (Some 1%nat) src 1 s).2 = [66; 65] ∧
  (winsnstr false (Some 1%nat) src 1 s).1.1 = Done OK ∧
  SpecModel.line_of (winsnstr false (Some 1%nat) src 1 s).1.2 1 0
    = Some [32; 65; 66; 32; 32].
Proof. by vm_compute. Qed.

(** X2. A limit above the length is kept.  The first thing the narrow build
    does with it is to evaluate the source at position [n - 1], which is the
    terminator or lies beyond it.  [wins_nwstr] first scans for the length,
    evaluating the positions 0 to [len], and the first thing it does after
    the scan is to evaluate the source at position [n - 1]. *)
Lemma limit_above_length_is_kept {World : Type} `{!Collaborators World}
    (a : nat) (buf : list Z) (n len : Z) (w : World) :
  len < n →
  (strlen buf = Some len →
   head (winsnstr false (Some a) (Some buf) n w).2 = Some (Read (n - 1))) ∧
  (wcs_scan buf = Some len →
   ∃ rest,
     (wins_nwstr (Some a) (Some buf) n w).2
       = (Scan <$> seqZ 0 (len + 1)) ++ rest ∧
     head rest = Some (Read (n - 1))).
Proof.
  intros Hn.
  assert (Hclamp : 0 ≤ len → Z.to_nat (clamp n len) = S (Z.to_nat (n - 1)) ∧
                             Z.of_nat (Z.to_nat (n - 1)) = n - 1).
  { intros H0. unfold clamp.
    replace (n <? 0) with false by (symmetry; apply Z.ltb_ge; lia).
    replace (n <? len) with false by (symmetry; apply Z.ltb_ge; lia).
    cbn. lia. }
  split; intros Hlen.
  - destruct Hclamp as [Hc Hpos]; [apply strlen_bounds in Hlen; lia|].
    rewrite winsnstr_narrow_run, Hlen. cbv beta match zeta. rewrite Hc.
    rewrite (insch_backwards_S _ _ _ _ _ _ _ (fetch_narrow_fetches buf)), Hpos.
    destruct (buf !! _) as [c|]; [|done].
    destruct (winsch _ _ w) as [r w1]. destruct (r =? ERR); [done|].
    by destruct (insch_backwards _ _ _ w1) as [[res w'] t].
  - destruct Hclamp as [Hc Hpos]; [pose proof (wcs_scan_bounds _ _ Hlen); lia|].
    rewrite wins_nwstr_run, Hlen. cbv beta match zeta. rewrite Hc.
    rewrite (insch_backwards_S _ _ _ _ _ _ _ (fetch_wide_fetches buf)), Hpos.
    rewrite (scan_events_seq buf 0 len Hlen).
    destruct (buf !! _) as [c|]; [|by eexists].
    destruct (winsch _ _ w) as [r w1]. destruct (r =? ERR); [by eexists|].
    destruct (insch_backwards _ _ _ w1) as [[res w'] t]. by eexists.
Qed.

(** C2 (the code departs from it).  Called with limit 4 on the array
    "AB\0X", whose string has length 2, the narrow build of [winsnstr] and
    [wins_nwstr] keep the count 4: they evaluate the source at positions 3
    and 2, at and beyond the terminator, and insert four units. *)
Theorem limit_above_length_is_not_clamped :
  let s := SpecModel.blank_screen 1 5 0 1 in
  let buf := [65; 66; 0; 88] in
  strlen buf = Some 2 ∧ clamp 4 2 = 4 ∧
  reads (winsnstr false (Some 1%nat) (Some buf) 4 s).2 = [3; 2; 1; 0] ∧
  inserted (winsnstr false (Some 1%nat) (Some buf) 4 s).2 = [88; 0; 66; 65] ∧
  reads (wins_nwstr (Some 1%nat) (Some buf) 4 s).2 = [3; 2; 1; 0] ∧
  inserted (wins_nwstr (Some 1%nat) (Some buf) 4 s).2 = [88; 0; 66; 65] ∧
  (winsnstr false (Some 1%nat) (Some buf) 4 s).1.1 = Done OK.
Proof. by vm_compute. Qed.

(** The 600-byte source of the spec's example, with the single-byte
    decoding of the model: 512 units are inserted; the loop test that ends
    decoding evaluates [str[512]]. *)
Example six_hundred_bytes_insert_512 :
  let run := winsnstr true (Some 1%nat) (Some (replicate 600 65 ++ [0])) (-1)
               (SpecModel.blank_screen 1 5 0 1) in
  run.1.1 = Done OK ∧ length (inserted run.2) = 512%nat ∧
  length (decode_calls run.2) = 512%nat ∧ last (reads run.2) = Some 512.
Proof. by vm_compute. Qed.

(** * Further properties of the engines *)

(** ** Strings *)

(** A buffer on which [strlen] answers [len] is [len] non-zero elements,
    the terminator, and whatever follows it in the array. *)
Lemma strlen_split (buf : list Z) (len : Z) :
  strlen buf = Some len →
  0 ≤ len ∧
  buf = take (Z.to_nat len) buf ++ 0 :: drop (S (Z.to_nat len)) buf ∧
  length (take (Z.to_nat len) buf) = Z.to_nat len ∧
  Forall (λ c, c ≠ 0) (take (Z.to_nat len) buf).
Proof.
  revert len. induction buf as [|c rest IH]; intros len; cbn [strlen]; [done|].
  destruct (Z.eqb_spec c 0) as [->|Hc].
  - intros [= <-]. cbn. by rewrite drop_0.
  - destruct (strlen rest) as [l|]; [|done]. cbn. intros [= <-].
    destruct (IH l eq_refl) as (Hl & Hsplit & Hlen & Hnz).
    replace (Z.to_nat (Z.succ l)) with (S (Z.to_nat l)) by lia.
    cbn [take drop length]. rewrite Hlen.
    repeat split; [lia| |by constructor].
    by rewrite <- app_comm_cons, <- Hsplit.
Qed.


Lemma wcs_scan_is_strlen (buf : list Z) : wcs_scan buf = strlen buf.
Proof. induction buf as [|c rest IH]; cbn; by rewrite ?IH. Qed.

(** ** Offering units *)

Section Offering.
Context {World : Type} `{!Collaborators World}.



End Offering.

Section LoopsAsOffers.
Context {World : Type} `{!Collaborators World}.
Context (fetch : nat → @M World chtype) (arr : list Z) (f : Z → chtype)
  (ev : nat → list event) (win : WINDOW_ptr).
Context (Hfetch : fetches fetch arr f ev) (Hquiet : ∀ k, quiet (ev k)).

(** Inside the array an insertion loop is the insertion step on the first
    [n] elements, converted and taken last one first. *)
Lemma insch_backwards_offer n w res w' t :
  insch_backwards fetch win n w = (res, w', t) →
  (n ≤ length arr)%nat →
  ∃ r, res = Done r ∧
       offer_units win (reverse (f <$> take n arr)) w = (r, w', insch_calls t).
Proof using Hfetch Hquiet.
  revert n w res w' t. trace_unfold.
  apply (insch_backwards_run fetch arr f ev win
    (λ n w res w' t, (n ≤ length arr)%nat → ∃ r, res = Done r ∧ _));
    [exact Hfetch|..].
  - intros w _. by exists None.
  - intros n w Hnone Hlen. apply lookup_ge_None in Hnone. lia.
  - intros n w c w1 Hc Hw _. use_quiet (Hquiet n). cbn.
    rewrite (take_S_r _ _ _ Hc), fmap_app, reverse_app. cbn. rewrite Hw.
    by exists (Some ERR).
  - intros n w c r w1 res w' t Hc Hw Hr _ IH Hlen.
    destruct IH as (r' & -> & Hoffer); [lia|]. use_quiet (Hquiet n). cbn.
    rewrite (take_S_r _ _ _ Hc), fmap_app, reverse_app. cbn. rewrite Hw.
    destruct (Z.eqb_spec r ERR) as [|_]; [done|]. rewrite Hoffer.
    by exists r'.
Qed.

(** The status of an insertion loop and the failed calls in its trace. *)
Lemma insch_backwards_status n w res w' t :
  insch_backwards fetch win n w = (res, w', t) →
  (res = Done None → ∀ ch, (ch, ERR) ∉ insch_calls t) ∧
  (∀ e, res = Done (Some e) → e = ERR ∧ ∃ ch, (ch, ERR) ∈ insch_calls t).
Proof using Hfetch Hquiet.
  revert n w res w' t. trace_unfold.
  apply (insch_backwards_run fetch arr f ev win
    (λ _ _ res _ t, (res = Done None → _) ∧ (∀ e, res = Done (Some e) → _)));
    [exact Hfetch|..].
  - intros w. split; [|done]. intros _ ch Hch. by apply elem_of_nil in Hch.
  - done.
  - intros n w c w1 _ _. use_quiet (Hquiet n). cbn. split; [done|].
    intros e [= <-]. split; [done|]. exists (f c). left.
  - intros n w c r w1 res w' t _ _ Hr _ [Hok Herr]. use_quiet (Hquiet n). cbn.
    split.
    + intros Hres ch [[= _ ?]|Hch]%elem_of_cons; [done|]. by eapply Hok.
    + intros e Hres. destruct (Herr e Hres) as (-> & ch & Hch).
      split; [done|]. exists ch. by right.
Qed.

(** Every unit an insertion loop offers is a converted element. *)
Lemma insch_backwards_range (Q : chtype → Prop) n w res w' t :
  (∀ c, Q (f c)) →
  insch_backwards fetch win n w = (res, w', t) →
  Forall (λ c, Q c.1) (insch_calls t).
Proof using Hfetch Hquiet.
  intros HQ. revert n w res w' t. trace_unfold.
  apply (insch_backwards_run fetch arr f ev win
    (λ _ _ _ _ t, Forall (λ c, Q c.1) _)); [exact Hfetch|..].
  - constructor.
  - intros n w _. use_quiet (Hquiet n). constructor.
  - intros n w c w1 _ _. use_quiet (Hquiet n). cbn.
    constructor; [apply HQ|constructor].
  - intros n w c r w1 res w' t _ _ _ _ IH. use_quiet (Hquiet n). cbn.
    constructor; [apply HQ|exact IH].
Qed.



End LoopsAsOffers.

(** ** The narrow build and the wide-source engine, end to end *)

Section EndToEnd.
Context {World : Type} `{!Collaborators World}.

Lemma clamp_at_most_length (n len : Z) : 0 ≤ len → n ≤ len → clamp n len = len.
Proof.
  intros H0 Hn. unfold clamp.
  destruct (Z.ltb_spec n 0), (Z.ltb_spec n len); cbn; lia.
Qed.

Lemma finish_Done (r : option Z) : finish (Done r) = Done (default OK r).
Proof. by destruct r. Qed.

(** With a limit that does not exceed the length, the narrow build is the
    insertion step on the bytes of the string, last byte first. *)
Lemma narrow_run_is_offer a buf len n (w : World) res w' t :
  strlen buf = Some len → n ≤ len →
  winsnstr false (Some a) (Some buf) n w = (res, w', t) →
  ∃ r, res = Done (default OK r) ∧
    offer_units (Some a)
      (reverse ((λ c, c `mod` 256) <$> take (Z.to_nat len) buf)) w
    = (r, w', insch_calls t).
Proof.
  intros Hlen Hn. pose proof (strlen_bounds _ _ Hlen) as Hb.
  rewrite winsnstr_narrow_run, Hlen, clamp_at_most_length by lia.
  destruct (insch_backwards _ _ _ w) as [[r2 w2] t2] eqn:Hins.
  intros [= <- <- <-].
  eapply insch_backwards_offer in Hins as (r & -> & Hoffer);
    [|apply fetch_narrow_fetches|intros; apply quiet_read|lia].
  exists r. by rewrite finish_Done.
Qed.


End EndToEnd.





(** X5. Every unit the narrow build of [winsnstr] passes to [winsch] is an
    unsigned byte, whatever the sign of the [char]s in the source. *)
Theorem narrow_build_offers_unsigned_bytes {World : Type}
    `{!Collaborators World}
    (win : WINDOW_ptr) (str : string_ptr) (n : Z) (w : World) :
  Forall (λ c, 0 ≤ c.1 < 256) (insch_calls (winsnstr false win str n w).2).
Proof.
  destruct win as [a|], str as [buf|]; try by constructor.
  rewrite winsnstr_narrow_run.
  destruct (strlen buf) as [len|]; [|by constructor].
  destruct (insch_backwards _ _ _ w) as [[r2 w2] t2] eqn:Hins. cbn.
  eapply (insch_backwards_range _ _ _ _ _ (fetch_narrow_fetches buf)
            (λ k, quiet_read _) (λ c, 0 ≤ c < 256)); [|exact Hins].
  intros c. by apply Z.mod_pos_bound.
Qed.

(** X6. The status of an engine tells whether an insert failed: a run that
    returns does so with [OK] or [ERR]; with [OK] only if both arguments
    were non-null and no [winsch] call returned [ERR]; with [ERR] only if an
    argument was null or a [winsch] call returned [ERR]. *)
Theorem status_reports_failure {World : Type} `{!Collaborators World}
    (wide : bool) (win : WINDOW_ptr) (str : string_ptr) (n : Z) (w : World)
    (res : result Z) (w' : World) (t : list event) (r : Z) :
  winsnstr wide win str n w = (res, w', t) ∨
  wins_nwstr win str n w = (res, w', t) →
  res = Done r →
  (r = OK ∧ is_Some win ∧ is_Some str ∧ ∀ ch, (ch, ERR) ∉ insch_calls t) ∨
  (r = ERR ∧ (win = None ∨ str = None ∨ ∃ ch, (ch, ERR) ∈ insch_calls t)).
Proof.
  intros Hrun ->.
  destruct win as [a|], str as [buf|];
    try (destruct Hrun as [Hrun|Hrun];
         change ((Done ERR, w, []) = (Done r, w', t)) in Hrun;
         injection Hrun as <- _ _; right; (split; [done|auto]); fail).
  assert (Hfin : ∀ fetch arr f ev m r2 t2,
    fetches fetch arr f ev → (∀ k, quiet (ev k)) →
    insch_backwards fetch (Some a) m w = (r2, w', t2) →
    finish r2 = Done r →
    (r = OK ∧ is_Some (Some a) ∧ is_Some (Some buf) ∧
     ∀ ch, (ch, ERR) ∉ insch_calls t2) ∨
    (r = ERR ∧ (Some a = None ∨ Some buf = None ∨
                ∃ ch, (ch, ERR) ∈ insch_calls t2))).
  { intros fetch arr f ev m r2 t2 Hf Hq Hins Hfinish.
    destruct (insch_backwards_status _ _ _ _ _ Hf Hq _ _ _ _ _ Hins)
      as [Hok Herr].
    destruct r2 as [[e|]| |]; try done; injection Hfinish as <-.
    - destruct (Herr e eq_refl) as (-> & Hch). right. auto.
    - left. repeat split; eauto. }
  destruct Hrun as [Hrun|Hrun]; [destruct wide|].
  - apply winsnstr_wide_shape in Hrun as [[_ [=]]|Hshape].
    destruct Hshape as (m & r1 & t1 & t2 & _ & -> & _ & Hc1 & _ & _ & _ & _ &
                        _ & Hfuel & Hfault & Hdone).
    rewrite insch_calls_app, Hc1. cbn [app].
    destruct r1 as [[wstr p]| |]; [|by destruct Hfault as [_ [=]]|done].
    destruct Hdone as [([= <-] & _ & Hno)|([= <-] & Hch)]; [by eauto| |].
    + left. repeat split; eauto.
    + right. auto.
  - rewrite winsnstr_narrow_run in Hrun.
    destruct (strlen buf) as [len|]; [|by injection Hrun].
    destruct (insch_backwards _ _ _ w) as [[r2 w2] t2] eqn:Hins.
    injection Hrun as Hres <- <-.
    eapply Hfin; [apply fetch_narrow_fetches|intros; apply quiet_read|
                  exact Hins|done].
  - rewrite wins_nwstr_run in Hrun.
    destruct (wcs_scan buf) as [len|]; [|by injection Hrun].
    destruct (insch_backwards _ _ _ w) as [[r2 w2] t2] eqn:Hins.
    injection Hrun as Hres <- <-.
    destruct (scan_events_quiet buf 0) as [(Hs & _) _].
    rewrite insch_calls_app, Hs. cbn [app].
    eapply Hfin; [apply fetch_wide_fetches|intros; apply quiet_read|
                  exact Hins|done].
Qed.

(** The second insert of "AB" fails for want of room: the status is [ERR]
    and the failed call is in the trace. *)
Lemma status_reports_failure_witness :
  let run := winsnstr (World:=nat) false (Some 1%nat) (Some [65; 66; 0])
               (-1) 1%nat in
  run = (Done ERR, 0%nat, [Read 1; Insch 66 OK; Read 0; Insch 65 ERR]) ∧
  ((ERR = OK ∧ is_Some (Some 1%nat) ∧ is_Some (Some [65; 66; 0]) ∧
    ∀ ch, (ch, ERR) ∉ insch_calls run.2) ∨
   (ERR = ERR ∧ (Some 1%nat = None ∨ Some [65; 66; 0] = None ∨
                 ∃ ch, (ch, ERR) ∈ insch_calls run.2))).
Proof.
  intros run. split; [reflexivity|].
  apply (status_reports_failure (World:=nat) false (Some 1%nat)
           (Some [65; 66; 0]) (-1) 1%nat run.1.1 run.1.2 run.2 ERR).
  - left. reflexivity.
  - reflexivity.
Defined.

(** ** Inserting in parts *)

Section Parts.
Context {World : Type} `{!Collaborators World}.


End Parts.



(** ** The wide build on single-byte text *)

Section SingleBytes.
Context {World : Type} `{!Collaborators World}.

(** The elements of a string up to and including its terminator. *)
Lemma strlen_lookup (buf : list Z) (len : Z) (P : Z → Prop) :
  strlen buf = Some len →
  Forall P (take (Z.to_nat len) buf) →
  buf !! Z.to_nat len = Some 0 ∧
  ∀ k, (k < Z.to_nat len)%nat → ∃ c, buf !! k = Some c ∧ c ≠ 0 ∧ P c.
Proof.
  intros (H0 & Hsplit & Hlen & Hnz)%strlen_split HP. split.
  - rewrite Hsplit. by apply list_lookup_middle.
  - intros k Hk.
    destruct (lookup_lt_is_Some_2 (take (Z.to_nat len) buf) k) as [c Hc];
      [lia|].
    exists c. rewrite <- (lookup_take_lt buf (Z.to_nat len) k) by done.
    split; [done|]. split.
    + by eapply (proj1 (Forall_lookup _ _) Hnz).
    + by eapply (proj1 (Forall_lookup _ _) HP).
Qed.

(** With a decoder that takes a 7-bit byte as one unit, the decode loop
    copies the bytes between the cursor and the end of the budget or of the
    string, whichever comes first. *)
Lemma decode_loop_single_bytes fuel buf n len i wstr p (w : World) res w' t :
  (∀ c rest max, 0 < c < 128 → 1 ≤ max → PDC_mbtowc (c :: rest) max = (1, c)) →
  strlen buf = Some len →
  Forall (λ c, 0 < c < 128) (take (Z.to_nat len) buf) →
  0 ≤ i → n - i ≤ Z.of_nat fuel → i ≤ Z.min n len →
  decode_loop fuel buf n i wstr p w = (res, w', t) →
  ∃ wstr', res = Done (wstr', (p + Z.to_nat (Z.min n len - i))%nat) ∧
           decoded t = take (Z.to_nat (Z.min n len - i)) (drop (Z.to_nat i) buf).
Proof.
  intros Hdec Hlen Hascii Hi Hfuel Him Hrun.
  destruct (strlen_lookup _ _ _ Hlen Hascii) as [Hend Hbelow].
  pose proof (strlen_bounds _ _ Hlen) as Hb.
  assert (Hat : ∀ i c, 0 ≤ i ≤ len → buf !! Z.to_nat i = Some c → c ≠ 0 →
                i < len ∧ 0 < c < 128).
  { intros j c Hj Hc Hc0. destruct (Z.eq_dec j len) as [->|Hne]; [congruence|].
    destruct (Hbelow (Z.to_nat j)) as (c' & Hc' & _ & HP); [lia|].
    split; [lia|congruence]. }
  eapply (decode_loop_run buf n
    (λ i p wstr res t, i ≤ Z.min n len →
       ∃ wstr', res = Done (wstr', (p + Z.to_nat (Z.min n len - i))%nat) ∧
         decoded t = take (Z.to_nat (Z.min n len - i)) (drop (Z.to_nat i) buf)))
    in Hrun as [_ HP]; [by apply HP| | | | |done..].
  - intros i0 p0 wstr0 Hi0 Hnone Hle.
    apply lookup_ge_None in Hnone. lia.
  - intros i0 p0 wstr0 c Hi0 Hc Hexit Hle. exists wstr0.
    assert (Z.min n len - i0 = 0) as ->.
    { destruct Hexit as [->|Hn]; [|lia].
      destruct (Z.eq_dec i0 len) as [->|Hne]; [lia|].
      destruct (Hbelow (Z.to_nat i0)) as (c' & Hc' & Hc0 & _); [lia|].
      congruence. }
    cbn. by rewrite Nat.add_0_r.
  - intros i0 p0 wstr0 c r wc Hi0 Hc Hc0 Hin Hd Hr Hle.
    destruct (Hat i0 c) as [Hlt Hasc]; [lia|done|done|].
    rewrite (drop_S _ _ _ Hc), Hdec in Hd by lia. injection Hd as <- <-. lia.
  - intros i0 p0 wstr0 c r wc res0 t0 Hi0 Hc Hc0 Hin Hd Hr IH Hle.
    destruct (Hat i0 c) as [Hlt Hasc]; [lia|done|done|].
    pose proof Hd as Hd'.
    rewrite (drop_S _ _ _ Hc), Hdec in Hd' by lia. injection Hd' as <- <-.
    destruct IH as (wstr' & -> & Hdecoded); [lia|]. exists wstr'. split.
    + do 2 f_equal. lia.
    + cbn. fold (decoded t0). rewrite Hdecoded, (drop_S _ _ _ Hc).
      replace (Z.to_nat (Z.min n len - i0))
        with (S (Z.to_nat (Z.min n len - (i0 + 1)))) by lia.
      cbn [take]. do 3 f_equal. lia.
Qed.

(** Units in the range of the cell type are converted to themselves. *)
Lemma to_chtype_small (l : list Z) :
  Forall (λ c, 0 ≤ c < 2 ^ 32) l → to_chtype <$> l = l.
Proof.
  induction 1 as [|c l Hc _ IH]; [done|]. cbn.
  by rewrite IH; unfold to_chtype; rewrite Z.mod_small.
Qed.

(** The wide build on a string of 7-bit bytes, with such a decoder, is the
    insertion step on the first 512 bytes of the string at most, last byte
    first, for every limit. *)
Lemma wide_run_is_offer a buf len n (w : World) res w' t :
  (∀ c rest max, 0 < c < 128 → 1 ≤ max → PDC_mbtowc (c :: rest) max = (1, c)) →
  strlen buf = Some len →
  Forall (λ c, 0 < c < 128) (take (Z.to_nat len) buf) →
  winsnstr true (Some a) (Some buf) n w = (res, w', t) →
  ∃ r, res = Done (default OK r) ∧
    offer_units (Some a) (reverse (take (Z.to_nat (Z.min len 512)) buf)) w
    = (r, w', insch_calls t).
Proof.
  intros Hdec Hlen Hascii.
  destruct (clamp_nonneg_of_strlen buf len n Hlen) as [Hm _].
  pose proof (strlen_bounds _ _ Hlen) as Hb.
  pose proof (clamp_ge n len) as Hclamp.
  rewrite winsnstr_wide_run, Hlen. cbv zeta.
  set (m := cap (clamp n len)) in *.
  assert (Hmin : Z.min m len = Z.min len 512).
  { subst m. unfold cap. rewrite Z.gtb_ltb.
    destruct (Z.ltb_spec 512 (clamp n len)); lia. }
  destruct (decode_loop _ _ _ _ _ _ w) as [[r1 w1] t1] eqn:Hrun.
  pose proof Hrun as Hno. apply decode_loop_no_insch in Hno
    as (-> & Hc1 & _); [|lia..].
  pose proof Hrun as Hcopy.
  eapply decode_loop_single_bytes in Hcopy as (wstr & Hr1 & Hdecoded);
    [|done..|lia|lia|lia].
  subst r1. rewrite Z.sub_0_r, Hmin in *. cbn [Z.to_nat drop Nat.add] in *.
  apply decode_loop_result in Hrun as (Hlw & _ & _ & Htake);
    [|rewrite ?length_replicate; lia..].
  rewrite length_replicate in Hlw. cbn [take app] in Htake.
  destruct (insch_backwards _ _ _ w) as [[r2 w2] t2] eqn:Hins.
  intros [= <- <- <-].
  eapply insch_backwards_offer in Hins as (r & -> & Hoffer);
    [|apply fetch_local_fetches|intros; apply quiet_nil|lia].
  rewrite Htake, Hdecoded in Hoffer.
  cbn [Z.to_nat take drop app] in Hoffer.
  rewrite to_chtype_small in Hoffer.
  - exists r. rewrite finish_Done, insch_calls_app, Hc1. done.
  - replace (Z.to_nat (Z.min len 512))
      with (Nat.min (Z.to_nat (Z.min len 512)) (Z.to_nat len)) by lia.
    rewrite <- take_take. apply Forall_take.
    eapply Forall_impl; [exact Hascii|]. cbn. lia.
Qed.

(** With a decoder that never reports more bytes than it was allowed, the
    decode loop stays at or below its budget and does not leave a buffer
    that extends beyond the budget. *)
Lemma decode_loop_reads_within fuel buf n i wstr p (w : World) res w' t :
  (∀ s max, 1 ≤ max → (PDC_mbtowc s max).1 ≤ max) →
  n < Z.of_nat (length buf) →
  0 ≤ i → n - i ≤ Z.of_nat fuel → i ≤ n →
  decode_loop fuel buf n i wstr p w = (res, w', t) →
  res ≠ Fault ∧ Forall (λ j, i ≤ j ≤ n) (reads t).
Proof.
  intros Hc Hlen Hi Hfuel Hin Hrun.
  eapply (decode_loop_run buf n
    (λ i _ _ res t, i ≤ n → res ≠ Fault ∧ Forall (λ j, i ≤ j ≤ n) (reads t)))
    in Hrun as [_ HP]; [by apply HP| | | | |done..].
  - intros i0 _ _ Hi0 Hnone Hle. apply lookup_ge_None in Hnone. lia.
  - intros i0 p0 wstr0 c _ _ _ Hle. split; [done|]. by repeat constructor.
  - intros i0 p0 wstr0 c r wc _ _ _ _ _ _ Hle. split; [done|].
    by repeat constructor.
  - intros i0 p0 wstr0 c r wc res0 t0 Hi0 _ _ Hlt Hd Hr IH Hle.
    pose proof (Hc (drop (Z.to_nat i0) buf) (n - i0)) as Hmax.
    rewrite Hd in Hmax. cbn in Hmax.
    destruct IH as [Hres Hreads]; [lia|]. split; [done|]. cbn.
    constructor; [lia|]. eapply Forall_impl; [exact Hreads|]. cbn. lia.
Qed.

End SingleBytes.


(** The decoder of the model takes 7-bit bytes one by one. *)
Lemma decode_one_single_byte c rest max :
  0 < c < 128 → 1 ≤ max → SpecModel.decode_one (c :: rest) max = (1, c).
Proof.
  intros Hc Hmax. unfold SpecModel.decode_one.
  replace (max <? 1) with false by (symmetry; apply Z.ltb_ge; lia).
  rewrite Z.mod_small by lia.
  replace (c =? 0) with false by (symmetry; apply Z.eqb_neq; lia).
  by replace (c <? 128) with true by (symmetry; apply Z.ltb_lt; lia).
Qed.


(** X9. The two builds of [winsnstr] agree on a string of at most 512
    7-bit bytes when the limit does not exceed its length and the decoder
    takes each such byte as one unit of the same value: same status, same
    final store, same calls to [winsch]. *)
Theorem builds_agree_on_single_byte_text {World : Type}
    `{!Collaborators World} (a : nat) (buf : list Z) (len n : Z) (w : World) :
  (∀ c rest max, 0 < c < 128 → 1 ≤ max → PDC_mbtowc (c :: rest) max = (1, c)) →
  strlen buf = Some len → len ≤ 512 → n ≤ len →
  Forall (λ c, 0 < c < 128) (take (Z.to_nat len) buf) →
  (winsnstr true (Some a) (Some buf) n w).1
    = (winsnstr false (Some a) (Some buf) n w).1 ∧
  insch_calls (winsnstr true (Some a) (Some buf) n w).2
    = insch_calls (winsnstr false (Some a) (Some buf) n w).2.
Proof.
  intros Hdec Hlen H512 Hn Hascii.
  destruct (winsnstr true _ _ _ w) as [[resW wW] tW] eqn:HW.
  destruct (winsnstr false _ _ _ w) as [[resN wN] tN] eqn:HN.
  eapply wide_run_is_offer in HW as (rW & -> & HoW); [|done..].
  eapply narrow_run_is_offer in HN as (rN & -> & HoN); [|done..].
  rewrite Z.min_l in HoW by done.
  assert (Hid : (λ c, c `mod` 256) <$> take (Z.to_nat len) buf
                = take (Z.to_nat len) buf).
  { rewrite <- (list_fmap_id (take (Z.to_nat len) buf)) at 2.
    apply Forall_fmap_ext. eapply Forall_impl; [exact Hascii|].
    intros c Hc. cbv beta in Hc. unfold id. apply Z.mod_small. lia. }
  rewrite Hid in HoN.
  assert (Heq : (rW, wW, insch_calls tW) = (rN, wN, insch_calls tN))
    by (rewrite <- HoW, <- HoN; reflexivity).
  injection Heq as <- <- Ht. cbn [fst snd]. by rewrite Ht.
Qed.

(** "AB" with limit 2 on the modelled window and decoder. *)
Lemma builds_agree_on_single_byte_text_witness :
  let s := SpecModel.blank_screen 1 5 0 1 in
  strlen [65; 66; 0] = Some 2 ∧ 2 ≤ 512 ∧ 2 ≤ 2 ∧
  Forall (λ c, 0 < c < 128) (take (Z.to_nat 2) [65; 66; 0]) ∧
  (winsnstr true (Some 1%nat) (Some [65; 66; 0]) 2 s).1
    = (winsnstr false (Some 1%nat) (Some [65; 66; 0]) 2 s).1 ∧
  insch_calls (winsnstr true (Some 1%nat) (Some [65; 66; 0]) 2 s).2
    = insch_calls (winsnstr false (Some 1%nat) (Some [65; 66; 0]) 2 s).2.
Proof.
  intros s.
  assert (Hascii : Forall (λ c, 0 < c < 128) (take (Z.to_nat 2) [65; 66; 0]))
    by (repeat constructor; lia).
  split; [reflexivity|]. split; [lia|]. split; [lia|]. split; [exact Hascii|].
  apply (builds_agree_on_single_byte_text 1%nat [65; 66; 0] 2 2 s).
  - exact decode_one_single_byte.
  - reflexivity.
  - lia.
  - lia.
  - exact Hascii.
Defined.

(** X10. Wide build, limit negative or at most the length of the string,
    and a decoder that never reports more bytes than it was allowed:
    [winsnstr] returns, and it evaluates the source only at positions from
    0 to the length of the string, and none above 512; it never leaves the
    string. *)
Theorem wide_build_reads_within_the_string {World : Type}
    `{!Collaborators World}
    (a : nat) (buf : list Z) (len n : Z) (w : World)
    (res : result Z) (w' : World) (t : list event) :
  (∀ s max, 1 ≤ max → (PDC_mbtowc s max).1 ≤ max) →
  strlen buf = Some len → n ≤ len →
  winsnstr true (Some a) (Some buf) n w = (res, w', t) →
  (∃ r, res = Done r) ∧ Forall (λ j, 0 ≤ j ≤ Z.min len 512) (reads t).
Proof.
  intros Hc Hlen Hn. pose proof (strlen_bounds _ _ Hlen) as Hb.
  rewrite winsnstr_wide_run, Hlen, clamp_at_most_length by lia. cbv zeta.
  assert (Hcap : cap len = Z.min len 512).
  { unfold cap. rewrite Z.gtb_ltb. destruct (Z.ltb_spec 512 len); lia. }
  rewrite Hcap. set (m := Z.min len 512).
  destruct (decode_loop _ _ _ _ _ _ w) as [[r1 w1] t1] eqn:Hrun.
  pose proof Hrun as Hread.
  apply decode_loop_reads_within in Hread as [Hnf Hreads]; [|done|lia..].
  pose proof Hrun as Hterm. apply decode_loop_terminates in Hterm; [|lia..].
  destruct r1 as [[wstr p]| |]; [|done..].
  apply decode_loop_result in Hrun as (Hlw & _ & Hp & _);
    [|rewrite ?length_replicate; lia..].
  rewrite length_replicate in Hlw.
  destruct (insch_backwards _ _ _ w1) as [[r2 w2] t2] eqn:Hins.
  intros [= <- <- <-].
  pose proof Hins as Hnoreads. eapply insch_backwards_no_reads in Hnoreads;
    [|apply fetch_local_fetches|done].
  eapply insch_backwards_offer in Hins as (r & -> & _);
    [|apply fetch_local_fetches|intros; apply quiet_nil|lia].
  split; [rewrite finish_Done; eauto|].
  by rewrite reads_app, Hnoreads, app_nil_r.
Qed.

(** The decoder of the model keeps to the bytes it is allowed. *)
Lemma decode_one_within_limit s max :
  1 ≤ max → (SpecModel.decode_one s max).1 ≤ max.
Proof.
  intros Hmax. unfold SpecModel.decode_one.
  replace (max <? 1) with false by (symmetry; apply Z.ltb_ge; lia).
  destruct s as [|c rest]; cbn [fst]; [lia|].
  destruct (_ =? 0); cbn [fst]; [lia|].
  destruct (_ <? 128); cbn [fst]; [lia|].
  destruct (_ =? 192); cbn [fst]; [|lia].
  destruct rest as [|c1 rest]; cbn [fst]; [lia|].
  destruct (Z.ltb_spec 1 max); cbn [fst]; lia.
Qed.

(** 'A' and a lead byte cut off by the end of the string. *)
Lemma wide_build_reads_within_the_string_witness :
  let s := SpecModel.blank_screen 1 5 0 1 in
  let run := winsnstr true (Some 1%nat) (Some [65; 195; 0]) (-1) s in
  strlen [65; 195; 0] = Some 2 ∧ -1 ≤ 2 ∧
  (∃ r, run.1.1 = Done r) ∧ Forall (λ j, 0 ≤ j ≤ Z.min 2 512) (reads run.2).
Proof.
  intros s run. split; [reflexivity|]. split; [lia|].
  apply (wide_build_reads_within_the_string 1%nat [65; 195; 0] 2 (-1) s
           run.1.1 run.1.2 run.2).
  - exact decode_one_within_limit.
  - reflexivity.
  - lia.
  - fold run. clearbody run. by destruct run as [[r s'] t].
Defined.

(** X11. The empty string inserts nothing, and the store is left as it
    was.  With a limit that is not positive the narrow build of [winsnstr]
    returns [OK] without a call to [winsch] and without its loop looking at
    the source, which [strlen] has measured; [wins_nwstr] returns [OK]
    without a call to [winsch], and the one element of the source it
    evaluates is the terminator, in its length scan.  The wide build of
    [winsnstr] returns [OK] without a call to [winsch] for every limit,
    after its decode loop has looked at the terminator. *)
Theorem empty_string_inserts_nothing {World : Type} `{!Collaborators World}
    (a : nat) (tl : list Z) (n m : Z) (w : World) :
  n ≤ 0 →
  winsnstr false (Some a) (Some (0 :: tl)) n w = (Done OK, w, []) ∧
  wins_nwstr (Some a) (Some (0 :: tl)) n w = (Done OK, w, [Scan 0]) ∧
  winsnstr true (Some a) (Some (0 :: tl)) m w = (Done OK, w, [Read 0]).
Proof.
  intros Hn. repeat split.
  - rewrite winsnstr_narrow_run. cbn [strlen]. change (0 =? 0) with true.
    cbv match. by rewrite clamp_at_most_length by lia.
  - rewrite wins_nwstr_run. cbn [wcs_scan scan_events].
    change (0 =? 0) with true.
    cbv match. by rewrite clamp_at_most_length by lia.
  - rewrite winsnstr_wide_run. cbn [strlen]. change (0 =? 0) with true.
    cbv match zeta. by rewrite decode_loop_unfold.
Qed.

(** The empty string in a larger array, limit 0, with no room to insert. *)
Lemma empty_string_inserts_nothing_witness :
  0 ≤ 0 ∧
  winsnstr (World:=nat) false (Some 1%nat) (Some (0 :: [88])) 0 0%nat
    = (Done OK, 0%nat, []) ∧
  wins_nwstr (World:=nat) (Some 1%nat) (Some (0 :: [88])) 0 0%nat
    = (Done OK, 0%nat, [Scan 0]) ∧
  winsnstr (World:=nat) true (Some 1%nat) (Some (0 :: [88])) 9 0%nat
    = (Done OK, 0%nat, [Read 0]).
Proof.
  split; [lia|].
  apply (empty_string_inserts_nothing (World:=nat) 1%nat [88] 0 9 0%nat). lia.
Defined.

(** ** The limit, in general *)


(** "AB\0X" with limit 4. *)
Lemma limit_above_length_is_kept_witness :
  let s := SpecModel.blank_screen 1 5 0 1 in
  2 < 4 ∧ strlen [65; 66; 0; 88] = Some 2 ∧ wcs_scan [65; 66; 0; 88] = Some 2 ∧
  head (winsnstr false (Some 1%nat) (Some [65; 66; 0; 88]) 4 s).2
    = Some (Read (4 - 1)) ∧
  ∃ rest,
    (wins_nwstr (Some 1%nat) (Some [65; 66; 0; 88]) 4 s).2
      = [Scan 0; Scan 1; Scan 2] ++ rest ∧
    head rest = Some (Read (4 - 1)).
Proof.
  intros s.
  destruct (limit_above_length_is_kept 1%nat [65; 66; 0; 88] 4 2 s)
    as [Hnarrow Hwide]; [lia|].
  split; [lia|]. split; [reflexivity|]. split; [reflexivity|].
  split; [apply Hnarrow|apply Hwide]; reflexivity.
Defined.

(** ** The cursor move of the [mv] entry points *)

Section MoveFirst.
Context {World : Type} `{!Collaborators World}.

(** An engine run after a move: the move is logged first, and the store
    the run ends in is the one its [winsch] calls produce from the store
    the move left.  A failed move ends the run; otherwise the run is the
    engine's run from the store the move left. *)
Lemma moved_then_engine (mv : Z * World) (m : M Z)
    (engine : WINDOW_ptr → M Z) (target : World → WINDOW_ptr) :
  (∀ w, m w = engine (target w) w) →
  (∀ w res w' t, engine (target w) w = (res, w', t) →
     replay (target w) (insch_calls t).*1 w = (insch_calls t, w')) →
  let run :=
    let '(r, w1) := mv in
    if r =? ERR then (Done ERR, w1, [Move r])
    else let '(res, w', t) := m w1 in (res, w', Move r :: t) in
  let eng := engine (target mv.2) mv.2 in
  head run.2 = Some (Move mv.1) ∧
  replay (target mv.2) (insch_calls run.2).*1 mv.2
    = (insch_calls run.2, run.1.2) ∧
  (if mv.1 =? ERR then run = (Done ERR, mv.2, [Move mv.1])
   else run = (eng.1.1, eng.1.2, Move mv.1 :: eng.2)).
Proof.
  intros Hm Hengine. destruct mv as [r w1]. cbn [fst snd]. rewrite Hm.
  destruct (r =? ERR); [done|].
  destruct (engine (target w1) w1) as [[res w'] t] eqn:Hrun.
  split; [done|]. split; [by apply Hengine in Hrun|done].
Qed.

End MoveFirst.

(** X12. The [mv] entry points move first and do not undo the move: the
    first event of a run is the call to [wmove] (or [move]), and the store
    the run ends in is the store its [winsch] calls on the target window
    produce from the store that call left, whether the move or a later
    insert fails or not.  A failed move ends the run: the status is [ERR],
    the store is as the move left it, and the move is the only event, so
    that no call to [winsch] follows.  After a move that did not fail the
    status, the final store and the remaining events are those of the
    engine run on the target window from the store the move left. *)
Theorem mv_entry_points_keep_the_move {World : Type} `{!Collaborators World}
    (wide : bool) (win : WINDOW_ptr) (y x : Z) (str : string_ptr) (n : Z)
    (w : World) :
  let after (mv : Z * World) (target : WINDOW_ptr) (engine : WINDOW_ptr → M Z)
      (run : result Z * World * list event) :=
    let eng := engine target mv.2 in
    head run.2 = Some (Move mv.1) ∧
    replay target (insch_calls run.2).*1 mv.2 = (insch_calls run.2, run.1.2) ∧
    (if mv.1 =? ERR then run = (Done ERR, mv.2, [Move mv.1])
     else run = (eng.1.1, eng.1.2, Move mv.1 :: eng.2)) in
  let after_wmove := after (wmove win y x w) win in
  let after_move := after (move y x w) (stdscr (move y x w).2) in
  after_wmove (λ win, winsnstr wide win str n)
    (mvwinsnstr wide win y x str n w) ∧
  after_wmove (λ win, winsnstr wide win str (-1))
    (mvwinsstr wide win y x str w) ∧
  after_wmove (λ win, wins_nwstr win str n) (mvwins_nwstr win y x str n w) ∧
  after_wmove (λ win, wins_nwstr win str (-1)) (mvwins_wstr win y x str w) ∧
  after_move (λ scr, winsnstr wide scr str n) (mvinsnstr wide y x str n w) ∧
  after_move (λ scr, winsnstr wide scr str (-1)) (mvinsstr wide y x str w) ∧
  after_move (λ scr, wins_nwstr scr str n) (mvins_nwstr y x str n w) ∧
  after_move (λ scr, wins_nwstr scr str (-1)) (mvins_wstr y x str w).
Proof.
  assert (Hnarrow : ∀ m win w res w' t,
            winsnstr wide win str m w = (res, w', t) →
            replay win (insch_calls t).*1 w = (insch_calls t, w')).
  { intros m win0 w0 res w' t Hrun.
    by apply (engine_calls wide win0 str m w0 res w' t); left. }
  assert (Hwide : ∀ m win w res w' t,
            wins_nwstr win str m w = (res, w', t) →
            replay win (insch_calls t).*1 w = (insch_calls t, w')).
  { intros m win0 w0 res w' t Hrun.
    by apply (engine_calls wide win0 str m w0 res w' t); right. }
  intros after after_wmove after_move. subst after_wmove after_move after.
  unfold mvwinsnstr, mvwinsstr, mvwins_nwstr, mvwins_wstr,
    mvinsnstr, mvinsstr, mvins_nwstr, mvins_wstr.
  rewrite !bind_call_move, !bind_call_wmove. cbv zeta.
  repeat lazymatch goal with |- (head _ = _ ∧ _) ∧ _ => split end.
  - apply (moved_then_engine (wmove win y x w) (winsnstr wide win str n)
             (λ win0, winsnstr wide win0 str n) (λ _, win)); [done|].
    intros w0. apply Hnarrow.
  - apply (moved_then_engine (wmove win y x w) (winsnstr wide win str (-1))
             (λ win0, winsnstr wide win0 str (-1)) (λ _, win)); [done|].
    intros w0. apply Hnarrow.
  - apply (moved_then_engine (wmove win y x w) (wins_nwstr win str n)
             (λ win0, wins_nwstr win0 str n) (λ _, win)); [done|].
    intros w0. apply Hwide.
  - apply (moved_then_engine (wmove win y x w) (wins_nwstr win str (-1))
             (λ win0, wins_nwstr win0 str (-1)) (λ _, win)); [done|].
    intros w0. apply Hwide.
  - apply (moved_then_engine (move y x w)
             (get_stdscr ≫= λ scr, winsnstr wide scr str n)
             (λ scr, winsnstr wide scr str n) stdscr);
      [intros; by rewrite bind_get_stdscr|].
    intros w0. apply Hnarrow.
  - apply (moved_then_engine (move y x w)
             (get_stdscr ≫= λ scr, winsnstr wide scr str (-1))
             (λ scr, winsnstr wide scr str (-1)) stdscr);
      [intros; by rewrite bind_get_stdscr|].
    intros w0. apply Hnarrow.
  - apply (moved_then_engine (move y x w)
             (get_stdscr ≫= λ scr, wins_nwstr scr str n)
             (λ scr, wins_nwstr scr str n) stdscr);
      [intros; by rewrite bind_get_stdscr|].
    intros w0. apply Hwide.
  - apply (moved_then_engine (move y x w)
             (get_stdscr ≫= λ scr, wins_nwstr scr str (-1))
             (λ scr, wins_nwstr scr str (-1)) stdscr);
      [intros; by rewrite bind_get_stdscr|].
    intros w0. apply Hwide.
Qed.

(** "AB" at a position outside the modelled window, which has one line of
    five cells: the move fails and nothing is inserted. *)
Lemma mv_entry_points_keep_the_move_witness :
  let s := SpecModel.blank_screen 1 5 0 1 in
  let bad := mvwinsnstr false (Some 1%nat) 3 0 (Some [65; 66; 0]) (-1) s in
  wmove (Some 1%nat) 3 0 s = (ERR, s) ∧
  head bad.2 = Some (Move ERR) ∧
  replay (Some 1%nat) (insch_calls bad.2).*1 s = (insch_calls bad.2, bad.1.2) ∧
  bad = (Done ERR, s, [Move ERR]).
Proof.
  intros s bad. split; [reflexivity|].
  exact (proj1 (mv_entry_points_keep_the_move false (Some 1%nat) 3 0
                  (Some [65; 66; 0]) (-1) s)).
Defined.
